(** * RTMP control-plane actor and RTP forwarding hook

    A shallow embedding of the RTMP server of [internal/core] (the connection
    registry, its single-owner event loop, the identifier allocator and the
    administrative facade) and of [internal/core/rtsp_forward.go] (the
    process-global forwarder table and the per-packet hook), together with the
    properties the specification states about them.

    The model comes first, then the vocabulary of the specification and the
    concrete inputs, then the lemmas and theorems. *)

From Stdlib Require Import ZArith Lia.
From Stdlib Require Import Strings.Byte Strings.Ascii.
From stdpp Require Import base option list strings gmap.

(** * Decimal formatting ([strconv.FormatUint] in base 10) *)

Module Strconv.

Definition digit_char (d : Z) : ascii := ascii_of_nat (48 + Z.to_nat d).

Definition digit_value (c : ascii) : Z := (Z.of_nat (nat_of_ascii c) - 48)%Z.

(** The digit loop of [formatBits]: the least significant digit is produced
    first and written in front of what has been produced so far. *)
Fixpoint formatBits (fuel : nat) (u : Z) (acc : string) : string :=
  match fuel with
  | O => acc
  | S fuel' =>
      let acc' := String (digit_char (u mod 10)) acc in
      if (u / 10 =? 0)%Z then acc' else formatBits fuel' (u / 10) acc'
  end.

(** A 64-bit unsigned value has at most twenty decimal digits. *)
Definition FormatUint (u : Z) : string := formatBits 20 u "".

(** Reading a decimal numeral back, most significant digit first. *)
Fixpoint decimal_acc (s : string) (v : Z) : Z :=
  match s with
  | EmptyString => v
  | String c s' => decimal_acc s' (10 * v + digit_value c)%Z
  end.

Definition decimal (s : string) : Z := decimal_acc s 0.

Definition is_digit (c : ascii) : bool :=
  bool_decide (0 ≤ digit_value c < 10)%Z.

Fixpoint all_digits (s : string) : bool :=
  match s with
  | EmptyString => true
  | String c s' => is_digit c && all_digits s'
  end.

End Strconv.

(** * Little-endian decoding ([binary.LittleEndian.Uint32]) *)

Module Binary.

(** The four bytes of the buffer [b := make([]byte, 4)]. *)
Record buf4 := Buf4 { b0 : byte; b1 : byte; b2 : byte; b3 : byte }.

Definition byte_val (b : byte) : Z := Z.of_N (Byte.to_N b).

Definition Uint32 (b : buf4) : Z :=
  Z.lor (Z.lor (Z.lor (byte_val (b0 b)) (Z.shiftl (byte_val (b1 b)) 8))
               (Z.shiftl (byte_val (b2 b)) 16))
        (Z.shiftl (byte_val (b3 b)) 24).

End Binary.

(** * The connection registry *)

(** What the server reads of a connection worker: [c.ID()] and
    [c.RemoteAddr().String()], both fixed when the worker is constructed. *)
Record rtmpConn := RtmpConn { ID : string; RemoteAddr : string }.

#[export] Instance rtmpConn_eq_dec : EqDecision rtmpConn.
Proof. solve_decision. Defined.

(** [conns map[*rtmpConn]struct{}]: a set of worker pointers.  The key is the
    pointer, the value is the object it points to. *)
Abbreviation registry := (gmap nat rtmpConn).

(** [for c := range s.conns] visits every entry once, in an order the
    language leaves unspecified. *)
Class RangeOrder := {
  range : registry → list (nat * rtmpConn);
  range_perm : ∀ m, range m ≡ₚ map_to_list m
}.

#[export] Instance map_to_list_order : RangeOrder :=
  {| range := map_to_list; range_perm := λ m, reflexivity (map_to_list m) |}.

(** One call of [rand.Read(b)] on a four-byte buffer. *)
Inductive randRead :=
| RandOk (b : Binary.buf4)
| RandErr (err : string).

Section Allocator.
Context `{RangeOrder}.

Definition uint32_wrap (u : Z) : Z := (u mod 2 ^ 32)%Z.

(** [u := Uint32(b); u %= 899999999; u += 100000000] on a [uint32]. *)
Definition fold_id (b : Binary.buf4) : Z :=
  uint32_wrap (uint32_wrap (Binary.Uint32 b mod 899999999) + 100000000).

Definition id_of_bytes (b : Binary.buf4) : string :=
  Strconv.FormatUint (fold_id b).

Definition alreadyPresent (conns : registry) (id : string) : bool :=
  existsb (λ pc, bool_decide (ID pc.2 = id)) (range conns).

(** [newConnID]: the list holds what the successive calls of [rand.Read]
    deliver; [None] means the loop is still running after all of them. *)
Fixpoint newConnID (conns : registry) (rnd : list randRead)
  : option (string * option string) :=
  match rnd with
  | [] => None
  | RandErr err :: _ => Some (""%string, Some err)
  | RandOk b :: rnd' =>
      let id := id_of_bytes b in
      if alreadyPresent conns id then newConnID conns rnd'
      else Some (id, None)
  end.

End Allocator.

(** * The control-plane actor *)

(** [gortsplib.ServerSessionState], the coarse state [c.safeState()] reads. *)
Inductive ServerSessionState :=
| ServerSessionStateInitial
| ServerSessionStatePreRead
| ServerSessionStateRead
| ServerSessionStatePrePublish
| ServerSessionStatePublish.

Module API.

Record rtmpServerAPIConnsListItem :=
  ListItem { RemoteAddr : string; State : string }.

Record rtmpServerAPIConnsListData :=
  ListData { Items : gmap string rtmpServerAPIConnsListItem }.

Record rtmpServerAPIConnsListRes :=
  ListRes { Data : option rtmpServerAPIConnsListData; ListErr : option string }.

Record rtmpServerAPIConnsKickRes := KickRes { KickErr : option string }.

End API.

Inductive logLevel := LevelInfo | LevelError.

(** What one run of the server does to its collaborators, in order.  [Log]
    is a call of [s.log], which hands on to the parent's logger. *)
Inductive effect :=
| Log (level : logLevel) (format : string) (args : list string)
| NewRTMPConn (c : nat) (id : string) (nconn : string)
| ConnCloseCall (c : nat)
| SendListRes (res : API.rtmpServerAPIConnsListRes)
| SendKickRes (res : API.rtmpServerAPIConnsKickRes)
| CtxCancel
| ListenerClose
| OnRTMPServerSet (arg : option nat)
| GoRun.

(** The case the actor's [select] takes in one iteration.  A new socket is
    given by its remote address and comes with the reads of the randomness
    source that fall into its handling; a list request comes with the worker
    states as they are when it is served. *)
Inductive event :=
| AcceptErr (err : string)
| ConnNew (nconn : string) (rnd : list randRead)
| ConnClose (c : nat)
| APIConnsList (safeState : nat → ServerSessionState)
| APIConnsKick (id : string)
| CtxDone.

(** The fields of [rtmpServer] the event loop reads and writes; [self] is the
    address of the server, [heapNext] the next address [newRTMPConn]
    allocates a worker at. *)
Record rtmpServer := RtmpServer {
  self : nat;
  metrics : option nat;
  conns : registry;
  heapNext : nat
}.

Definition set_conns (s : rtmpServer) (m : registry) : rtmpServer :=
  {| self := self s; metrics := metrics s; conns := m; heapNext := heapNext s |}.

Inductive control := Continue | BreakOuter.

Section Actor.
Context `{RangeOrder}.

Definition stateString (st : ServerSessionState) : string :=
  match st with
  | ServerSessionStateRead => "read"
  | ServerSessionStatePublish => "publish"
  | _ => "idle"
  end.

Definition listItem (safeState : nat → ServerSessionState)
    (pc : nat * rtmpConn) : API.rtmpServerAPIConnsListItem :=
  {| API.RemoteAddr := RemoteAddr pc.2;
     API.State := stateString (safeState pc.1) |}.

(** [data.Items[c.ID()] = ...]: the body of the loop filling the answer. *)
Definition assignItem (safeState : nat → ServerSessionState)
    (items : gmap string API.rtmpServerAPIConnsListItem)
    (pc : nat * rtmpConn) : gmap string API.rtmpServerAPIConnsListItem :=
  <[ID pc.2 := listItem safeState pc]> items.

(** The loop itself, one assignment per visited entry. *)
Definition listData (safeState : nat → ServerSessionState) (m : registry)
  : API.rtmpServerAPIConnsListData :=
  {| API.Items := foldl (assignItem safeState) ∅ (range m) |}.

(** The scan of the kick handler: the first visited entry whose ID is the
    requested one. *)
Fixpoint kickScan (id : string) (l : list (nat * rtmpConn)) : option nat :=
  match l with
  | [] => None
  | pc :: l' => if bool_decide (ID pc.2 = id) then Some pc.1 else kickScan id l'
  end.

(** One iteration of the [outer] loop.  [None]: the iteration never ends,
    because [newConnID] is still redrawing. *)
Definition step (s : rtmpServer) (ev : event)
  : option (rtmpServer * list effect * control) :=
  match ev with
  | AcceptErr err =>
      Some (s, [Log LevelError "%s" [err]], BreakOuter)
  | ConnNew nconn rnd =>
      match newConnID (conns s) rnd with
      | None => None
      | Some (id, _) =>
          let c := heapNext s in
          Some ({| self := self s; metrics := metrics s;
                   conns := <[c := RtmpConn id nconn]> (conns s);
                   heapNext := S c |},
                [NewRTMPConn c id nconn], Continue)
      end
  | ConnClose c =>
      match conns s !! c with
      | None => Some (s, [], Continue)
      | Some _ => Some (set_conns s (delete c (conns s)), [], Continue)
      end
  | APIConnsList safeState =>
      Some (s, [SendListRes (API.ListRes (Some (listData safeState (conns s))) None)],
            Continue)
  | APIConnsKick id =>
      match kickScan id (range (conns s)) with
      | Some c =>
          Some (set_conns s (delete c (conns s)),
                [ConnCloseCall c; SendKickRes (API.KickRes None)], Continue)
      | None =>
          Some (s, [SendKickRes (API.KickRes (Some "not found"%string))], Continue)
      end
  | CtxDone => Some (s, [], BreakOuter)
  end.

(** How far the loop got on a list of events. *)
Inductive loopEnd :=
| Broke       (* left through [break outer] *)
| Parked      (* waiting in [select] for the next event *)
| Redrawing.  (* inside [newConnID], which has not returned *)

Fixpoint outer (s : rtmpServer) (evs : list event)
  : rtmpServer * list effect * loopEnd :=
  match evs with
  | [] => (s, [], Parked)
  | ev :: evs' =>
      match step s ev with
      | None => (s, [], Redrawing)
      | Some (s', out, BreakOuter) => (s', out, Broke)
      | Some (s', out, Continue) =>
          let '(s'', out', e) := outer s' evs' in (s'', out ++ out', e)
      end
  end.

(** What [run] does once the loop is left. *)
Definition runExit (s : rtmpServer) : list effect :=
  [CtxCancel; ListenerClose]
  ++ match metrics s with
     | Some _ => [OnRTMPServerSet (Some (self s))]
     | None => []
     end.

Definition run (s : rtmpServer) (evs : list event)
  : rtmpServer * list effect * loopEnd :=
  let '(s', out, e) := outer s evs in
  match e with
  | Broke => (s', out ++ runExit s', Broke)
  | _ => (s', out, e)
  end.

End Actor.

(** [newRTMPServer]: [listen] is the outcome of [net.Listen], [addr] the
    address the new server object is allocated at. *)
Definition newRTMPServer (listen : option string) (address : string)
    (metrics : option nat) (addr : nat)
  : (rtmpServer + string) * list effect :=
  match listen with
  | Some err => (inr err, [])
  | None =>
      let s := {| self := addr; metrics := metrics; conns := ∅; heapNext := 0 |} in
      (inl s,
       [Log LevelInfo "listener opened on %s" [address]]
       ++ match metrics with
          | Some _ => [OnRTMPServerSet (Some addr)]
          | None => []
          end
       ++ [GoRun])
  end.

(** A server from its construction to where its event loop gets on the given
    events: everything it does to its collaborators, in order. *)
Definition lifecycle `{RangeOrder} (listen : option string) (address : string)
    (sink : option nat) (addr : nat) (evs : list event) : list effect :=
  match newRTMPServer listen address sink addr with
  | (inl s, out) => out ++ (run s evs).1.2
  | (inr _, out) => out
  end.

(** * The RTP forwarding hook *)

Module Forward.

(** [client] is the address of the forwarder's [gortsplib.Client], or [None]
    for the nil pointer. *)
Record forwarder := Forwarder {
  source : string;
  destination : string;
  client : option nat
}.

Definition set_client (f : forwarder) (c : nat) : forwarder :=
  {| source := source f; destination := destination f; client := Some c |}.

(** What the hook reads of its two arguments: [session.path.Name()],
    [session.stream.tracks()], [ctx.TrackID] and [ctx.Payload]. *)
Record rtspSession := RtspSession { pathName : string; tracks : list string }.

Record ServerHandlerOnPacketRTPCtx :=
  PacketCtx { TrackID : Z; Payload : list byte }.

(** The calls into the RTSP client library. *)
Inductive call :=
| StartPublishing (c : nat) (address : string) (trks : list string)
| WritePacketRTP (c : nat) (trackID : Z) (payload : list byte).

Inductive outcome := Returned | Panicked (err : string).

(** [regiserForward]: one more entry at the end of the global slice. *)
Definition regiserForward (src dst : string) (forwarders : list forwarder)
  : list forwarder :=
  forwarders ++ [Forwarder src dst None].

Section Hook.
(** [startPublishing c address trks] is the error [StartPublishing] returns
    for the client at [c], if any. *)
Variable startPublishing : nat → string → list string → option string.
Variable session : rtspSession.
Variable ctx : ServerHandlerOnPacketRTPCtx.

(** The body of the loop for one forwarder; [next] is the address the next
    client is allocated at. *)
Definition forwardOne (f : forwarder) (next : nat)
  : forwarder * nat * list call * outcome :=
  if bool_decide (source f = pathName session) then
    match client f with
    | None =>
        let f' := set_client f next in
        let start := StartPublishing next (destination f) (tracks session) in
        match startPublishing next (destination f) (tracks session) with
        | Some err => (f', S next, [start], Panicked err)
        | None =>
            (f', S next,
             [start; WritePacketRTP next (TrackID ctx) (Payload ctx)], Returned)
        end
    | Some c =>
        (f, next, [WritePacketRTP c (TrackID ctx) (Payload ctx)], Returned)
    end
  else (f, next, [], Returned).

(** [OnRTPForward]: the forwarders in slice order; a panic leaves the rest
    of the slice as it is. *)
Fixpoint OnRTPForward (forwarders : list forwarder) (next : nat)
  : list forwarder * nat * list call * outcome :=
  match forwarders with
  | [] => ([], next, [], Returned)
  | f :: fs =>
      match forwardOne f next with
      | (f', next', out, Panicked err) => (f' :: fs, next', out, Panicked err)
      | (f', next', out, Returned) =>
          let '(fs', next'', out', res) := OnRTPForward fs next' in
          (f' :: fs', next'', out ++ out', res)
      end
  end.

(** What the specification says happens to one forwarder on one packet that
    goes through: nothing when its source is another stream; when it has no
    client yet, a lazy open followed by the relay, and the forwarder keeps
    the client that was opened; the relay alone when it has one. *)
Inductive relayed : forwarder → forwarder → list call → Prop :=
| relayed_other f :
    source f ≠ pathName session → relayed f f []
| relayed_first f f' c :
    source f = pathName session → client f = None →
    startPublishing c (destination f) (tracks session) = None →
    source f' = source f → destination f' = destination f →
    client f' = Some c →
    relayed f f'
      [StartPublishing c (destination f) (tracks session);
       WritePacketRTP c (TrackID ctx) (Payload ctx)]
| relayed_again f c :
    source f = pathName session → client f = Some c →
    relayed f f [WritePacketRTP c (TrackID ctx) (Payload ctx)].

(** The forwarder whose lazy open fails. *)
Definition open_fails (f : forwarder) (c : nat) (err : string) : Prop :=
  source f = pathName session ∧ client f = None
  ∧ startPublishing c (destination f) (tracks session) = Some err.

End Hook.

(** [n] calls of [regiserForward] with the same two arguments. *)
Fixpoint regiserForward_times (n : nat) (src dst : string)
    (fs : list forwarder) : list forwarder :=
  match n with
  | O => fs
  | S n' => regiserForward src dst (regiserForward_times n' src dst fs)
  end.

Definition is_start (c : call) : bool :=
  match c with StartPublishing _ _ _ => true | _ => false end.

Definition is_write (c : call) : bool :=
  match c with WritePacketRTP _ _ _ => true | _ => false end.

(** What a forwarder towards [dst] with the client at [c] is asked to do on
    its first packet, and on a later one. *)
Definition first_packet (session : rtspSession)
    (ctx : ServerHandlerOnPacketRTPCtx) (dst : string) (c : nat) : list call :=
  [StartPublishing c dst (tracks session);
   WritePacketRTP c (TrackID ctx) (Payload ctx)].

Definition later_packet (ctx : ServerHandlerOnPacketRTPCtx) (c : nat) : call :=
  WritePacketRTP c (TrackID ctx) (Payload ctx).

End Forward.

(** * The administrative facade *)

Module Facade.

(** The server as those who call into it meet it: whether [s.ctx] has been
    cancelled; the event loop, back at its [select] with the given state or
    gone ([run] has returned); whether the accept goroutine is still there;
    and the units of [s.wg] that the workers hold, which were given [&s.wg]
    when they were constructed. *)
Record world := World {
  ctxDone : bool;
  actor : option rtmpServer;
  acceptor : bool;
  workers : nat
}.


(** A [select] statement, each case given by what taking it yields, or
    [None] while its channel operation cannot proceed: the statement takes
    any one of the cases that can proceed, and blocks while there is none. *)
Definition select {A : Type} (cases : list (option A)) : list A :=
  omap id cases.

Definition listResOf (out : list effect) : option API.rtmpServerAPIConnsListRes :=
  match last out with
  | Some (SendListRes res) => Some res
  | _ => None
  end.

Definition kickResOf (out : list effect) : option API.rtmpServerAPIConnsKickRes :=
  match last out with
  | Some (SendKickRes res) => Some res
  | _ => None
  end.

Definition terminatedList : API.rtmpServerAPIConnsListRes :=
  API.ListRes None (Some "terminated"%string).

Definition terminatedKick : API.rtmpServerAPIConnsKickRes :=
  API.KickRes (Some "terminated"%string).

Section Calls.
Context `{RangeOrder}.

(** The cases the [select] of the loop can take in a world.  Whoever sends
    to the loop does so in a [select] of its own beside [<-s.ctx.Done()],
    the accept goroutine included: once the context is cancelled nothing is
    handed to the loop any more, and the shutdown case is all it can take.
    Sockets and accept errors come from the accept goroutine. *)
Definition takes (w : world) (ev : event) : bool :=
  match ev with
  | CtxDone => ctxDone w
  | AcceptErr _ | ConnNew _ _ => negb (ctxDone w) && acceptor w
  | ConnClose _ | APIConnsList _ | APIConnsKick _ => negb (ctxDone w)
  end.

(** A send on one of the loop's channels: it proceeds when the loop is at
    its [select] and can take this case, and the loop then runs the
    iteration for it, answer included, before anything else. *)
Definition askActor (w : world) (ev : event) : option (list effect * world) :=
  match actor w with
  | None => None
  | Some s =>
      if takes w ev then
        match step s ev with
        | Some (s', out, Continue) =>
            Some (out, {| ctxDone := ctxDone w; actor := Some s';
                          acceptor := acceptor w; workers := workers w |})
        | _ => None
        end
      else None
  end.

(** [onAPIConnsList]: the results the call can have in a world, each with
    the world it leaves. *)
Definition onAPIConnsList (w : world) (safeState : nat → ServerSessionState)
  : list (API.rtmpServerAPIConnsListRes * world) :=
  select
    [ (* case s.apiConnsList <- req: return <-req.Res *)
      '(out, w') ← askActor w (APIConnsList safeState);
      res ← listResOf out;
      Some (res, w');
      (* case <-s.ctx.Done() *)
      if ctxDone w then Some (terminatedList, w) else None ].

(** [onAPIConnsKick], likewise. *)
Definition onAPIConnsKick (w : world) (id : string)
  : list (API.rtmpServerAPIConnsKickRes * world) :=
  select
    [ (* case s.apiConnsKick <- req: return <-req.Res *)
      '(out, w') ← askActor w (APIConnsKick id);
      res ← kickResOf out;
      Some (res, w');
      (* case <-s.ctx.Done() *)
      if ctxDone w then Some (terminatedKick, w) else None ].

(** [onConnClose], called by a worker that ends: the worlds the call can
    return in. *)
Definition onConnClose (w : world) (c : nat) : list world :=
  select
    [ (* case s.connClose <- c *)
      '(_, w') ← askActor w (ConnClose c);
      Some w';
      (* case <-s.ctx.Done() *)
      if ctxDone w then Some w else None ].

(** What goes on around a pending call.  The context is cancelled.  The loop
    runs an iteration for a case it can take.  The loop is left, on an error
    sent by the accept goroutine, which returns with that, or on the
    cancelled context; [run] then cancels the context itself and returns.
    The accept goroutine, whose [Accept] has failed, gives up reporting the
    error because the context is cancelled, and returns.  The workers take
    and release units of the wait group as they see fit. *)
Inductive world_step : world → world → Prop :=
| ws_cancel w :
    world_step w {| ctxDone := true; actor := actor w;
                    acceptor := acceptor w; workers := workers w |}
| ws_iteration w s ev s' out :
    actor w = Some s → takes w ev = true →
    step s ev = Some (s', out, Continue) →
    world_step w {| ctxDone := ctxDone w; actor := Some s';
                    acceptor := acceptor w; workers := workers w |}
| ws_exit w s ev s' out :
    actor w = Some s → takes w ev = true →
    step s ev = Some (s', out, BreakOuter) →
    world_step w {| ctxDone := true; actor := None;
                    acceptor := match ev with
                                | AcceptErr _ => false
                                | _ => acceptor w
                                end;
                    workers := workers w |}
| ws_acceptor_done w :
    ctxDone w = true → acceptor w = true →
    world_step w {| ctxDone := true; actor := actor w;
                    acceptor := false; workers := workers w |}
| ws_workers w n :
    world_step w {| ctxDone := ctxDone w; actor := actor w;
                    acceptor := acceptor w; workers := n |}.


End Calls.
End Facade.

(** * Vocabulary of the specification *)

(** At most one registered connection per ID. *)
Definition ids_unique (m : registry) : Prop :=
  ∀ p q c d, m !! p = Some c → m !! q = Some d → ID c = ID d → p = q.

Definition id_registered (m : registry) (id : string) : Prop :=
  ∃ p c, m !! p = Some c ∧ ID c = id.

Definition is_RandOk (r : randRead) : bool :=
  match r with RandOk _ => true | RandErr _ => false end.

(** The randomness source delivers bytes on every read of this iteration. *)
Definition rand_succeeds (ev : event) : bool :=
  match ev with
  | ConnNew _ rnd => forallb is_RandOk rnd
  | _ => true
  end.

(** Workers are allocated at increasing addresses: a registered worker lies
    below the next free one. *)
Definition heap_bounded (s : rtmpServer) : Prop :=
  ∀ p, is_Some (conns s !! p) → p < heapNext s.

(** The calls of the metrics hook among what a run does. *)
Definition is_metrics_call (e : effect) : bool :=
  match e with OnRTMPServerSet _ => true | _ => false end.

Definition metrics_calls (out : list effect) : list effect :=
  filter is_metrics_call out.

Definition is_listener_close (e : effect) : bool :=
  match e with ListenerClose => true | _ => false end.

(** The workers whose close operation a run calls, in order. *)
Definition closed_workers (out : list effect) : list nat :=
  omap (λ e, match e with ConnCloseCall c => Some c | _ => None end) out.

(** A forwarder of the session's stream, and one that has no client yet. *)
Definition serves (session : Forward.rtspSession) (f : Forward.forwarder) : bool :=
  bool_decide (Forward.source f = Forward.pathName session).

Definition unopened (session : Forward.rtspSession) (f : Forward.forwarder) : bool :=
  serves session f && bool_decide (Forward.client f = None).

(** The clients a table holds, in slice order. *)
Definition clients (fs : list Forward.forwarder) : list nat :=
  omap Forward.client fs.

(** Settles the tests a [filter] makes on calls that are given. *)
Ltac decide_filters :=
  repeat first [ rewrite decide_True by exact I
               | rewrite decide_False by (intros []) ].

(** * Concrete inputs *)

(** A registry with one connection, whose ID is the one the bytes
    [01 00 00 00] fold to. *)
Definition one_conn : rtmpConn := RtmpConn "100000001" "192.0.2.1:50000".

Definition one_conn_server : rtmpServer :=
  {| self := 7; metrics := None; conns := <[0 := one_conn]> ∅; heapNext := 1 |}.

Definition bytes_one : Binary.buf4 := Binary.Buf4 x01 x00 x00 x00.
Definition bytes_two : Binary.buf4 := Binary.Buf4 x02 x00 x00 x00.

(** A server that has just been constructed, and a run of its loop: two
    sockets, the second of which draws the first one's ID before a free one,
    a kick of the first connection and a late close notification. *)
Definition fresh_server : rtmpServer :=
  {| self := 7; metrics := None; conns := ∅; heapNext := 0 |}.

Definition busy_run : list event :=
  [ConnNew "192.0.2.1:50000" [RandOk bytes_one];
   ConnNew "192.0.2.2:50000" [RandOk bytes_one; RandOk bytes_two];
   APIConnsKick "100000001";
   ConnClose 0].

Module ForwardInputs.
Import Forward.

Definition live_session : rtspSession := RtspSession "live.stream" ["video"; "audio"].
Definition packet : ServerHandlerOnPacketRTPCtx := PacketCtx 1 [x80; x60].
Definition live2 : string := "rtsp://localhost:8554/live2.stream".

Definition always_opens : nat → string → list string → option string :=
  λ _ _ _, None.

Definition never_opens : nat → string → list string → option string :=
  λ _ _ _, Some "connection refused"%string.

(** A table with a forwarder of another stream, and one in which the first
    of two forwarders of the stream has been opened. *)
Definition mixed_table : list forwarder :=
  [Forwarder "other.stream" live2 None; Forwarder "live.stream" live2 None].

Definition half_open_table : list forwarder :=
  [Forwarder "live.stream" live2 (Some 0); Forwarder "live.stream" live2 None].

End ForwardInputs.


Definition cancelled_world : Facade.world :=
  {| Facade.ctxDone := true; Facade.actor := Some one_conn_server;
     Facade.acceptor := true; Facade.workers := 0 |}.

(** The same server before anything is cancelled. *)
Definition started_world : Facade.world :=
  {| Facade.ctxDone := false; Facade.actor := Some one_conn_server;
     Facade.acceptor := true; Facade.workers := 0 |}.

(** * Properties of the decimal formatting *)

Module StrconvFacts.
Import Strconv.

Lemma pow10_pos (k : nat) : (0 < 10 ^ Z.of_nat k)%Z.
Proof. apply Z.pow_pos_nonneg; lia. Qed.

Lemma pow10_succ (k : nat) : (10 ^ Z.of_nat (S k) = 10 * 10 ^ Z.of_nat k)%Z.
Proof. rewrite Nat2Z.inj_succ, Z.pow_succ_r; lia. Qed.

(** A value with [k + 1] digits is written with [k + 1] characters. *)
Lemma formatBits_length (fuel : nat) :
  ∀ (k : nat) (u : Z) (acc : string),
    (k < fuel)%nat →
    (10 ^ Z.of_nat k ≤ u < 10 ^ Z.of_nat (S k))%Z →
    String.length (formatBits fuel u acc) = (S k + String.length acc)%nat.
Proof.
  induction fuel as [|fuel IH]; intros k u acc Hk Hu; [lia|].
  cbn [formatBits].
  destruct k as [|k].
  - change (10 ^ Z.of_nat 0)%Z with 1%Z in Hu.
    change (10 ^ Z.of_nat 1)%Z with 10%Z in Hu.
    replace (u / 10)%Z with 0%Z by (symmetry; apply Z.div_small; lia).
    reflexivity.
  - rewrite !pow10_succ in Hu. pose proof (pow10_pos k) as Hp.
    rewrite <- pow10_succ in Hu.
    assert (10 ^ Z.of_nat k ≤ u / 10 < 10 ^ Z.of_nat (S k))%Z as Hq.
    { rewrite pow10_succ in *. split.
      - apply Z.div_le_lower_bound; lia.
      - apply Z.div_lt_upper_bound; lia. }
    destruct (Z.eqb_spec (u / 10) 0) as [Hz|_]; [lia|].
    rewrite (IH k) by (lia || exact Hq). cbn [String.length]. lia.
Qed.

Lemma formatBits_app (fuel : nat) :
  ∀ (u : Z) (acc1 acc2 : string),
    formatBits fuel u (acc1 +:+ acc2) = (formatBits fuel u acc1 +:+ acc2)%string.
Proof.
  induction fuel as [|fuel IH]; intros u acc1 acc2; [reflexivity|].
  cbn [formatBits].
  destruct (u / 10 =? 0)%Z; [reflexivity|].
  apply (IH _ (String _ acc1)).
Qed.

Lemma decimal_acc_app (s t : string) (v : Z) :
  decimal_acc (s +:+ t) v = decimal_acc t (decimal_acc s v).
Proof. revert v. induction s as [|c s IH]; intros v; cbn; [reflexivity|apply IH]. Qed.

Lemma digit_value_char (d : Z) : (0 ≤ d < 10)%Z → digit_value (digit_char d) = d.
Proof.
  intros Hd. unfold digit_value, digit_char.
  rewrite nat_ascii_embedding by lia. lia.
Qed.

(** Reading the written numeral back gives the value. *)
Lemma decimal_formatBits (fuel : nat) :
  ∀ (u : Z), (0 ≤ u < 10 ^ Z.of_nat fuel)%Z → (0 < fuel)%nat →
    decimal (formatBits fuel u "") = u.
Proof.
  unfold decimal.
  induction fuel as [|fuel IH]; intros u Hu Hf; [lia|].
  cbn [formatBits].
  pose proof (Z.mod_pos_bound u 10 ltac:(lia)) as Hm.
  pose proof (Z.div_mod u 10 ltac:(lia)) as Hdm.
  destruct (Z.eqb_spec (u / 10) 0) as [Hz|Hz].
  - cbn. rewrite digit_value_char by lia. lia.
  - change (String ?c "") with ("" +:+ String c "")%string.
    rewrite formatBits_app, decimal_acc_app.
    rewrite pow10_succ in Hu. pose proof (pow10_pos fuel) as Hp.
    assert (0 ≤ u / 10 < 10 ^ Z.of_nat fuel)%Z as Hq.
    { split; [apply Z.div_pos; lia | apply Z.div_lt_upper_bound; lia]. }
    destruct fuel as [|fuel].
    { change (10 ^ Z.of_nat 0)%Z with 1%Z in Hq. lia. }
    rewrite IH by (lia || exact Hq).
    cbn. rewrite digit_value_char by lia. lia.
Qed.

Lemma is_digit_char (d : Z) : (0 ≤ d < 10)%Z → is_digit (digit_char d) = true.
Proof.
  intros Hd. unfold is_digit. rewrite digit_value_char by lia.
  apply bool_decide_eq_true. lia.
Qed.

Lemma all_digits_formatBits (fuel : nat) :
  ∀ (u : Z) (acc : string),
    all_digits acc = true → all_digits (formatBits fuel u acc) = true.
Proof.
  induction fuel as [|fuel IH]; intros u acc Hacc; [exact Hacc|].
  cbn [formatBits].
  assert (all_digits (String (digit_char (u mod 10)) acc) = true) as Hd.
  { cbn. rewrite is_digit_char, Hacc; [reflexivity|].
    apply Z.mod_pos_bound; lia. }
  destruct (u / 10 =? 0)%Z; [exact Hd | apply IH, Hd].
Qed.

(** The three facts for a nine-digit value. *)
Lemma FormatUint_nine (u : Z) :
  (100000000 ≤ u ≤ 999999999)%Z →
  String.length (FormatUint u) = 9%nat
  ∧ all_digits (FormatUint u) = true
  ∧ decimal (FormatUint u) = u.
Proof.
  intros Hu. unfold FormatUint. split; [|split].
  - rewrite (formatBits_length 20 8); [reflexivity | lia |].
    change (10 ^ Z.of_nat 8)%Z with 100000000%Z.
    change (10 ^ Z.of_nat 9)%Z with 1000000000%Z. lia.
  - apply all_digits_formatBits. reflexivity.
  - apply decimal_formatBits; [|lia].
    change (10 ^ Z.of_nat 20)%Z with 100000000000000000000%Z. lia.
Qed.

End StrconvFacts.

(** * Properties of the little-endian decoding and of the folding *)

Module BinaryFacts.
Import Binary.

Lemma byte_val_range (b : byte) : (0 ≤ byte_val b < 256)%Z.
Proof. unfold byte_val. pose proof (Byte.to_N_bounded b). lia. Qed.

(** Or-ing in a value shifted past the bits of [a] is adding it. *)
Lemma lor_shiftl_add (a b n : Z) :
  (0 ≤ n)%Z → (0 ≤ a < 2 ^ n)%Z →
  Z.lor a (Z.shiftl b n) = (a + b * 2 ^ n)%Z.
Proof.
  intros Hn Ha.
  assert (Z.land a (Z.shiftl b n) = 0%Z) as Hland.
  { apply Z.bits_inj'. intros m Hm.
    rewrite Z.land_spec, Z.bits_0.
    destruct (Z.lt_ge_cases m n) as [Hlt|Hge].
    - rewrite Z.shiftl_spec_low by lia. apply andb_false_r.
    - rewrite <- (Z.mod_small a (2 ^ n)) by lia.
      rewrite Z.mod_pow2_bits_high by lia. reflexivity. }
  pose proof (Z.add_lor_land a (Z.shiftl b n)) as Hadd.
  rewrite Hland, Z.shiftl_mul_pow2 in Hadd by lia.
  rewrite Z.shiftl_mul_pow2 by lia. lia.
Qed.

(** [Uint32] is the little-endian value of the four bytes. *)
Lemma Uint32_sum (b : buf4) :
  Uint32 b =
    (byte_val (b0 b) + 2 ^ 8 * byte_val (b1 b)
     + 2 ^ 16 * byte_val (b2 b) + 2 ^ 24 * byte_val (b3 b))%Z.
Proof.
  unfold Uint32.
  pose proof (byte_val_range (b0 b)). pose proof (byte_val_range (b1 b)).
  pose proof (byte_val_range (b2 b)). pose proof (byte_val_range (b3 b)).
  rewrite (lor_shiftl_add (byte_val (b0 b)) _ 8) by lia.
  rewrite (lor_shiftl_add _ _ 16) by lia.
  rewrite (lor_shiftl_add _ _ 24) by lia.
  lia.
Qed.

Lemma Uint32_range (b : buf4) : (0 ≤ Uint32 b < 2 ^ 32)%Z.
Proof.
  rewrite Uint32_sum.
  pose proof (byte_val_range (b0 b)). pose proof (byte_val_range (b1 b)).
  pose proof (byte_val_range (b2 b)). pose proof (byte_val_range (b3 b)).
  lia.
Qed.

(** Neither assignment to [u] wraps around. *)
Lemma fold_id_eq (b : buf4) :
  fold_id b = (Uint32 b mod 899999999 + 100000000)%Z.
Proof.
  unfold fold_id, uint32_wrap.
  pose proof (Z.mod_pos_bound (Uint32 b) 899999999 ltac:(lia)) as Hm.
  rewrite (Z.mod_small (Uint32 b mod 899999999)) by lia.
  apply Z.mod_small. lia.
Qed.

Lemma fold_id_range (b : buf4) : (100000000 ≤ fold_id b ≤ 999999998)%Z.
Proof.
  rewrite fold_id_eq.
  pose proof (Z.mod_pos_bound (Uint32 b) 899999999 ltac:(lia)). lia.
Qed.

End BinaryFacts.

(** X3.  The folding stops one short of the largest nine-digit number: no
    draw is ever given the ID 999999999. *)
Theorem id_999999999_is_never_drawn (b : Binary.buf4) :
  (fold_id b ≤ 999999998)%Z ∧ id_of_bytes b ≠ "999999999"%string.
Proof.
  pose proof (BinaryFacts.fold_id_range b) as Hr. split; [lia|].
  intros Heq. unfold id_of_bytes in Heq.
  destruct (StrconvFacts.FormatUint_nine (fold_id b) ltac:(lia)) as (_ & _ & Hdec).
  rewrite Heq in Hdec.
  change (Strconv.decimal "999999999") with 999999999%Z in Hdec. lia.
Qed.

(** * Properties of the registry and of the allocator *)

Section RegistryFacts.
Context `{RangeOrder}.

Lemma elem_of_range (m : registry) (p : nat) (c : rtmpConn) :
  (p, c) ∈ range m ↔ m !! p = Some c.
Proof. rewrite range_perm. apply elem_of_map_to_list. Qed.

Lemma alreadyPresent_true (m : registry) (id : string) :
  alreadyPresent m id = true ↔ id_registered m id.
Proof.
  unfold alreadyPresent, id_registered. rewrite existsb_exists. split.
  - intros [[p c] [Hin Hid]]. exists p, c.
    apply list_elem_of_In, elem_of_range in Hin.
    apply bool_decide_eq_true in Hid. done.
  - intros (p & c & Hpc & Hid). exists (p, c). split.
    + apply list_elem_of_In, elem_of_range, Hpc.
    + apply bool_decide_eq_true. done.
Qed.

Lemma alreadyPresent_false (m : registry) (id : string) :
  alreadyPresent m id = false ↔ ¬ id_registered m id.
Proof.
  rewrite <- alreadyPresent_true. destruct (alreadyPresent m id); naive_solver.
Qed.

(** The loop skips the draws whose ID is taken and returns the first one
    whose ID is free. *)
Lemma newConnID_skip (m : registry) (pre : list Binary.buf4) (rnd : list randRead) :
  Forall (λ b, id_registered m (id_of_bytes b)) pre →
  newConnID m ((RandOk <$> pre) ++ rnd) = newConnID m rnd.
Proof.
  induction 1 as [|b pre Hb _ IH]; [reflexivity|].
  rewrite fmap_cons. cbn [app newConnID].
  apply alreadyPresent_true in Hb. rewrite Hb. exact IH.
Qed.

(** Whatever is returned without an error is a free, freshly folded ID. *)
Lemma newConnID_ok (m : registry) (rnd : list randRead) (id : string) :
  newConnID m rnd = Some (id, None) →
  ∃ b, RandOk b ∈ rnd ∧ id = id_of_bytes b ∧ ¬ id_registered m id.
Proof.
  induction rnd as [|[b|err] rnd IH]; cbn [newConnID]; [done| |done].
  destruct (alreadyPresent m (id_of_bytes b)) eqn:Hp.
  - intros (b' & Hin & Hrest)%IH. exists b'. split; [by right|done].
  - intros [= <-]. exists b. split; [by left|].
    split; [done|]. by apply alreadyPresent_false.
Qed.

(** An error of the randomness source is returned with the empty ID. *)
Lemma newConnID_err (m : registry) (rnd : list randRead) (id err : string) :
  newConnID m rnd = Some (id, Some err) → id = ""%string ∧ RandErr err ∈ rnd.
Proof.
  induction rnd as [|[b|err'] rnd IH]; cbn [newConnID]; [done| |].
  - destruct (alreadyPresent m (id_of_bytes b)); [|done].
    intros [-> Hin]%IH. split; [done|by right].
  - intros [= <- <-]. split; [done|by left].
Qed.

Lemma ids_unique_empty : ids_unique ∅.
Proof. intros p q c d Hp. by rewrite lookup_empty in Hp. Qed.

Lemma ids_unique_insert (m : registry) (p : nat) (c : rtmpConn) :
  ids_unique m → ¬ id_registered m (ID c) → ids_unique (<[p := c]> m).
Proof.
  intros Hu Hfresh q r d e Hq Hr Hid.
  apply lookup_insert_Some in Hq as [[<- <-]|[Hpq Hq]];
    apply lookup_insert_Some in Hr as [[<- <-]|[Hpr Hr]].
  - done.
  - destruct Hfresh. by exists r, e.
  - destruct Hfresh. by exists q, d.
  - by eapply Hu.
Qed.

Lemma ids_unique_delete (m : registry) (p : nat) :
  ids_unique m → ids_unique (delete p m).
Proof.
  intros Hu q r d e Hq Hr Hid.
  apply lookup_delete_Some in Hq as [_ Hq].
  apply lookup_delete_Some in Hr as [_ Hr].
  by eapply Hu.
Qed.

End RegistryFacts.

(** * Invariants of the event loop *)

Section LoopFacts.
Context `{RangeOrder}.

Lemma kickScan_Some (id : string) (l : list (nat * rtmpConn)) (p : nat) :
  kickScan id l = Some p → ∃ c, (p, c) ∈ l ∧ ID c = id.
Proof.
  induction l as [|[q c] l IH]; cbn; [done|].
  case_bool_decide as Hid.
  - intros [= <-]. exists c. split; [by left|done].
  - intros [d [Hin Hd]]%IH. exists d. split; [by right|done].
Qed.

Lemma kickScan_None (id : string) (l : list (nat * rtmpConn)) :
  kickScan id l = None ↔ ∀ p c, (p, c) ∈ l → ID c ≠ id.
Proof.
  induction l as [|[q c] l IH]; cbn.
  - split; [|done]. intros _ p c Hin. by apply elem_of_nil in Hin.
  - case_bool_decide as Hid.
    + split; [done|]. intros Hall. exfalso. apply (Hall q c); [by left|done].
    + rewrite IH. split.
      * intros Hall p d [[= -> ->]|Hin]%elem_of_cons; [done|].
        exact (Hall p d Hin).
      * intros Hall p d Hin. apply (Hall p d). by right.
Qed.

(** The kick handler on the registry: some entry with the requested ID, or
    none when no entry has it. *)
Lemma kickScan_range_Some (m : registry) (id : string) (p : nat) :
  kickScan id (range m) = Some p → ∃ c, m !! p = Some c ∧ ID c = id.
Proof.
  intros [c [Hin Hid]]%kickScan_Some. exists c.
  by apply elem_of_range in Hin.
Qed.

Lemma kickScan_range_None (m : registry) (id : string) :
  kickScan id (range m) = None ↔ ¬ id_registered m id.
Proof.
  rewrite kickScan_None. unfold id_registered. split.
  - intros Hall (p & c & Hpc & Hid). by eapply Hall; [apply elem_of_range|].
  - intros Hno p c Hin%elem_of_range Hid. apply Hno. by exists p, c.
Qed.

Lemma forallb_is_RandOk_no_err (rnd : list randRead) (err : string) :
  forallb is_RandOk rnd = true → RandErr err ∉ rnd.
Proof.
  rewrite forallb_forall. intros Hall Hin%list_elem_of_In.
  by apply Hall in Hin.
Qed.

Lemma step_ids_unique (s s' : rtmpServer) (ev : event)
    (out : list effect) (ctl : control) :
  ids_unique (conns s) → rand_succeeds ev = true →
  step s ev = Some (s', out, ctl) → ids_unique (conns s').
Proof.
  intros Hu Hr. destruct ev as [err|nconn rnd|c|st|id|]; cbn [step].
  - by intros [= <- _ _].
  - destruct (newConnID (conns s) rnd) as [[id [err|]]|] eqn:Hid; [| |done].
    + apply newConnID_err in Hid as [_ Hin].
      by apply forallb_is_RandOk_no_err in Hin.
    + intros [= <- _ _]. cbn [conns].
      apply newConnID_ok in Hid as (b & _ & _ & Hfresh).
      by apply ids_unique_insert.
  - destruct (conns s !! c); intros [= <- _ _]; [|done].
    by apply ids_unique_delete.
  - by intros [= <- _ _].
  - destruct (kickScan id (range (conns s))); intros [= <- _ _]; [|done].
    by apply ids_unique_delete.
  - by intros [= <- _ _].
Qed.

Lemma outer_ids_unique (evs : list event) :
  ∀ s, ids_unique (conns s) → forallb rand_succeeds evs = true →
       ids_unique (conns (outer s evs).1.1).
Proof.
  induction evs as [|ev evs IH]; intros s Hu Hr; [done|].
  cbn [forallb] in Hr. apply andb_prop in Hr as [Hev Hevs].
  cbn [outer].
  destruct (step s ev) as [[[s' out] [ | ]]|] eqn:Hstep; [| |done].
  - specialize (IH s' (step_ids_unique _ _ _ _ _ Hu Hev Hstep) Hevs).
    destruct (outer s' evs) as [[s'' out'] e]. exact IH.
  - exact (step_ids_unique _ _ _ _ _ Hu Hev Hstep).
Qed.

End LoopFacts.

(** * The identifier allocator *)

Section AllocatorSpec.
Context `{RangeOrder}.

(** C3.  Whatever is registered, when every read of the randomness source
    succeeds and the draws are retried while their ID is taken, [newConnID]
    returns, for the first draw whose ID is free, the decimal numeral of the
    little-endian 32-bit value of the four bytes, reduced modulo 899999999,
    plus 100000000: nine decimal digits, between 100000000 and 999999999,
    different from the ID of every registered connection.  Hence, as long as
    the randomness source succeeds, the event loop keeps the IDs of the
    registered connections pairwise distinct. *)
Theorem newConnID_allocates_fresh_nine_digits
    (m : registry) (pre : list Binary.buf4) (b : Binary.buf4)
    (rest : list randRead) :
  Forall (λ b', id_registered m (id_of_bytes b')) pre →
  ¬ id_registered m (id_of_bytes b) →
  let le32 := (Binary.byte_val (Binary.b0 b)
               + 2 ^ 8 * Binary.byte_val (Binary.b1 b)
               + 2 ^ 16 * Binary.byte_val (Binary.b2 b)
               + 2 ^ 24 * Binary.byte_val (Binary.b3 b))%Z in
  let u := (le32 mod 899999999 + 100000000)%Z in
  let id := Strconv.FormatUint u in
  newConnID m ((RandOk <$> pre) ++ RandOk b :: rest) = Some (id, None)
  ∧ (0 ≤ le32 < 2 ^ 32)%Z
  ∧ (100000000 ≤ u ≤ 999999999)%Z
  ∧ String.length id = 9%nat
  ∧ Strconv.all_digits id = true
  ∧ Strconv.decimal id = u
  ∧ (∀ p c, m !! p = Some c → ID c ≠ id)
  ∧ (∀ s evs, conns s = ∅ → forallb rand_succeeds evs = true →
              ids_unique (conns (outer s evs).1.1)).
Proof.
  intros Hpre Hfresh le32 u id.
  assert (id_of_bytes b = id) as Hid.
  { unfold id_of_bytes, id, u, le32.
    by rewrite BinaryFacts.fold_id_eq, BinaryFacts.Uint32_sum. }
  assert (100000000 ≤ u ≤ 999999998)%Z as Hu.
  { pose proof (BinaryFacts.fold_id_range b) as Hr.
    by rewrite BinaryFacts.fold_id_eq, BinaryFacts.Uint32_sum in Hr. }
  destruct (StrconvFacts.FormatUint_nine u ltac:(lia)) as (Hlen & Hdig & Hdec).
  pose proof (BinaryFacts.Uint32_range b) as Hr32.
  rewrite BinaryFacts.Uint32_sum in Hr32.
  split_and!; try done; try (unfold le32; lia); try lia.
  - rewrite newConnID_skip by done. cbn [newConnID].
    apply alreadyPresent_false in Hfresh. by rewrite Hfresh, Hid.
  - intros p c Hpc Heq. apply Hfresh. exists p, c. by rewrite Hid.
  - intros s evs Hs Hr. apply outer_ids_unique; [|done].
    rewrite Hs. apply ids_unique_empty.
Qed.

End AllocatorSpec.

(** * The administrative requests *)

Section ListFacts.
Context `{RangeOrder}.
Variable safeState : nat → ServerSessionState.

Abbreviation assign := (assignItem safeState).

Lemma items_untouched (l : list (nat * rtmpConn)) :
  ∀ acc id, (∀ pc, pc ∈ l → ID pc.2 ≠ id) → foldl assign acc l !! id = acc !! id.
Proof.
  induction l as [|x l IH]; intros acc id Hno; [done|].
  cbn [foldl]. rewrite IH.
  - unfold assignItem. apply lookup_insert_ne. apply Hno. by left.
  - intros pc Hin. apply Hno. by right.
Qed.

(** The entry a connection gets, when no other visited entry has its ID. *)
Lemma items_lookup (l : list (nat * rtmpConn)) :
  ∀ acc pc, pc ∈ l → (∀ pc', pc' ∈ l → ID pc'.2 = ID pc.2 → pc' = pc) →
    foldl assign acc l !! ID pc.2 = Some (listItem safeState pc).
Proof.
  induction l as [|x l IH]; intros acc pc Hin Huniq.
  { by apply elem_of_nil in Hin. }
  cbn [foldl]. destruct (decide (pc ∈ l)) as [Hl|Hl].
  - apply IH; [done|]. intros pc' Hin'. apply Huniq. by right.
  - apply elem_of_cons in Hin as [->|Hin]; [|done].
    rewrite items_untouched.
    + unfold assignItem. apply lookup_insert_eq.
    + intros pc' Hin' Hid. apply Hl.
      rewrite <- (Huniq pc'); [done|by right|done].
Qed.

(** Every entry of the answer was assigned for some visited connection. *)
Lemma items_origin (l : list (nat * rtmpConn)) :
  ∀ acc id item, foldl assign acc l !! id = Some item →
    acc !! id = Some item
    ∨ ∃ pc, pc ∈ l ∧ ID pc.2 = id ∧ item = listItem safeState pc.
Proof.
  induction l as [|x l IH]; intros acc id item Hl; [by left|].
  cbn [foldl] in Hl. apply IH in Hl as [Hacc|(pc & Hin & Hid & Hit)].
  - unfold assignItem in Hacc.
    apply lookup_insert_Some in Hacc as [[Hid <-]|[_ Hacc]]; [|by left].
    right. exists x. split; [by left|done].
  - right. exists pc. split; [by right|done].
Qed.

Lemma items_size (l : list (nat * rtmpConn)) :
  ∀ acc, NoDup ((λ pc, ID pc.2) <$> l) → (∀ pc, pc ∈ l → acc !! ID pc.2 = None) →
    size (foldl assign acc l) = (length l + size acc)%nat.
Proof.
  induction l as [|x l IH]; intros acc Hnd Hacc; [done|].
  rewrite fmap_cons in Hnd. apply NoDup_cons in Hnd as [Hx Hnd].
  cbn [foldl length]. rewrite IH; [|done|].
  - unfold assignItem. rewrite map_size_insert_None; [lia|].
    apply Hacc. by left.
  - intros pc Hin. unfold assignItem. rewrite lookup_insert_ne.
    + apply Hacc. by right.
    + intros Heq. apply Hx. rewrite Heq.
      by apply (list_elem_of_fmap_2 (λ pc, ID pc.2)).
Qed.

Lemma ids_unique_range (m : registry) :
  ids_unique m → NoDup ((λ pc, ID pc.2) <$> range m).
Proof.
  intros Hu. apply NoDup_fmap_2_strong.
  - intros [p c] [q d] Hp%elem_of_range Hq%elem_of_range Hid. cbn in Hid.
    assert (p = q) as -> by (by eapply Hu). congruence.
  - rewrite range_perm. apply NoDup_map_to_list.
Qed.

Lemma length_range (m : registry) : length (range m) = size m.
Proof. rewrite range_perm. apply length_map_to_list. Qed.

End ListFacts.

Section AdminSpec.
Context `{RangeOrder}.

(** X19.  On a registry with at most one entry per ID, a list request is
    answered with one item per registered connection, stored under the
    connection's ID and holding its remote address and its state, written
    "read" for a reading worker, "publish" for a publishing one and "idle"
    for every other; the answer has no other item, and the registry is as
    it was. *)
Theorem list_request_snapshots_registry
    (s : rtmpServer) (safeState : nat → ServerSessionState) :
  ids_unique (conns s) →
  ∃ data,
    step s (APIConnsList safeState)
      = Some (s, [SendListRes (API.ListRes (Some data) None)], Continue)
    ∧ (∀ p c, conns s !! p = Some c →
         API.Items data !! ID c
           = Some (API.ListItem (RemoteAddr c) (stateString (safeState p))))
    ∧ (∀ id item, API.Items data !! id = Some item →
         ∃ p c, conns s !! p = Some c ∧ ID c = id
                ∧ item = API.ListItem (RemoteAddr c) (stateString (safeState p)))
    ∧ size (API.Items data) = size (conns s)
    ∧ stateString ServerSessionStateRead = "read"%string
    ∧ stateString ServerSessionStatePublish = "publish"%string
    ∧ (∀ st, st ≠ ServerSessionStateRead → st ≠ ServerSessionStatePublish →
             stateString st = "idle"%string).
Proof.
  intros Hu. exists (listData safeState (conns s)).
  split; [reflexivity|]. cbn [listData API.Items]. split_and!.
  - intros p c Hpc.
    apply (items_lookup safeState (range (conns s)) ∅ (p, c)).
    + by apply elem_of_range.
    + intros [q d] Hq%elem_of_range Hid. cbn in Hid.
      assert (q = p) as -> by (by eapply Hu). congruence.
  - intros id item Hit.
    apply items_origin in Hit as [Hemp|([p c] & Hin & Hid & ->)].
    + by rewrite lookup_empty in Hemp.
    + exists p, c. by apply elem_of_range in Hin.
  - rewrite items_size.
    + rewrite map_size_empty, length_range. lia.
    + by apply ids_unique_range.
    + intros pc _. apply lookup_empty.
  - reflexivity.
  - reflexivity.
  - by intros [].
Qed.

(** C2.  A kick request for [id] either finds a registered connection with
    that ID, takes exactly that entry out of the registry, every other entry
    and everything else of the server left as it was, calls the close
    operation of that connection and answers without an error, or finds
    none, leaves the registry as it was and answers "not found".  With at
    most one entry per ID, no entry with the ID is left after a successful
    kick. *)
Theorem kick_request_removes_or_reports (s : rtmpServer) (id : string) :
  (∃ p c s',
      conns s !! p = Some c ∧ ID c = id
      ∧ step s (APIConnsKick id)
        = Some (s', [ConnCloseCall p; SendKickRes (API.KickRes None)],
                Continue)
      ∧ conns s' = delete p (conns s)
      ∧ conns s' !! p = None
      ∧ (∀ q, q ≠ p → conns s' !! q = conns s !! q)
      ∧ size (conns s') = pred (size (conns s))
      ∧ self s' = self s ∧ metrics s' = metrics s
      ∧ heapNext s' = heapNext s
      ∧ (ids_unique (conns s) → ¬ id_registered (conns s') id))
  ∨ (¬ id_registered (conns s) id
     ∧ step s (APIConnsKick id)
       = Some (s, [SendKickRes (API.KickRes (Some "not found"%string))],
               Continue)).
Proof.
  cbn [step].
  destruct (kickScan id (range (conns s))) as [p|] eqn:Hscan.
  - left. destruct (kickScan_range_Some _ _ _ Hscan) as (c & Hpc & Hid).
    exists p, c, (set_conns s (delete p (conns s))).
    cbn [set_conns conns self metrics heapNext]. split_and!; try done.
    + apply lookup_delete_eq.
    + intros q Hq. by apply lookup_delete_ne.
    + by apply map_size_delete_Some.
    + intros Hu (q & d & Hq & Hd).
      apply lookup_delete_Some in Hq as [Hne Hq].
      apply Hne. eapply Hu; [done..|congruence].
  - right. split; [|done]. by apply kickScan_range_None.
Qed.

Lemma kick_the_only_one (s : rtmpServer) (c : nat) (d : rtmpConn) :
  conns s !! c = Some d →
  (∀ q e, conns s !! q = Some e → ID e = ID d → q = c) →
  kickScan (ID d) (range (conns s)) = Some c.
Proof.
  intros Hc Honly.
  destruct (kickScan (ID d) (range (conns s))) as [p|] eqn:Hscan.
  - destruct (kickScan_range_Some _ _ _ Hscan) as (e & Hp & Hid).
    f_equal. by eapply Honly.
  - apply kickScan_range_None in Hscan. destruct Hscan. by exists c, d.
Qed.

Lemma kick_after_removal (s : rtmpServer) (c : nat) (d : rtmpConn) :
  (∀ q e, conns s !! q = Some e → ID e = ID d → q = c) →
  kickScan (ID d) (range (delete c (conns s))) = None.
Proof.
  intros Honly. apply kickScan_range_None.
  intros (q & e & [Hne Hq]%lookup_delete_Some & Hid).
  apply Hne. symmetry. by eapply Honly.
Qed.

(** C6.  A close notification removes the worker it names when that worker
    is registered, and otherwise changes nothing.  So for a registered
    worker that is the only one with its ID, a kick for that ID followed by
    the worker's own close notification, and the notification followed by
    the kick, both end in the registry without that one entry: the worker's
    close operation is called by the kick only when the kick comes first,
    and whichever event comes second leaves the registry as it finds it. *)
Theorem close_notification_and_kick_commute
    (s : rtmpServer) (c : nat) (d : rtmpConn) (h : nat) :
  conns s !! c = Some d →
  (∀ q e, conns s !! q = Some e → ID e = ID d → q = c) →
  let gone := set_conns s (delete c (conns s)) in
  ((conns s !! h = None ∧ step s (ConnClose h) = Some (s, [], Continue))
   ∨ (is_Some (conns s !! h)
      ∧ step s (ConnClose h)
        = Some (set_conns s (delete h (conns s)), [], Continue)))
  ∧ outer s [APIConnsKick (ID d); ConnClose c]
    = (gone, [ConnCloseCall c; SendKickRes (API.KickRes None)], Parked)
  ∧ outer s [ConnClose c; APIConnsKick (ID d)]
    = (gone, [SendKickRes (API.KickRes (Some "not found"%string))], Parked)
  ∧ step gone (ConnClose c) = Some (gone, [], Continue)
  ∧ step gone (APIConnsKick (ID d))
    = Some (gone, [SendKickRes (API.KickRes (Some "not found"%string))],
            Continue).
Proof.
  intros Hc Honly gone.
  assert (step gone (ConnClose c) = Some (gone, [], Continue)) as Hclose2.
  { cbn [step gone set_conns conns]. by rewrite lookup_delete_eq. }
  assert (step gone (APIConnsKick (ID d))
          = Some (gone, [SendKickRes (API.KickRes (Some "not found"%string))],
                  Continue)) as Hkick2.
  { cbn [step gone set_conns conns]. by rewrite (kick_after_removal s c d). }
  assert (step s (APIConnsKick (ID d))
          = Some (gone, [ConnCloseCall c; SendKickRes (API.KickRes None)],
                  Continue)) as Hkick1.
  { cbn [step]. by rewrite (kick_the_only_one s c d). }
  assert (step s (ConnClose c) = Some (gone, [], Continue)) as Hclose1.
  { cbn [step]. by rewrite Hc. }
  split_and!; try done.
  - cbn [step]. destruct (conns s !! h) eqn:Hh; [right|left]; eauto.
  - cbn [outer]. by rewrite Hkick1, Hclose2.
  - cbn [outer]. by rewrite Hclose1, Hkick2.
Qed.

(** C4.  What the loop does with a new socket when the first read of the
    randomness source fails: the error is dropped, a worker is constructed
    with the empty ID and entered into the registry. *)
Theorem rand_failure_registers_empty_id
    (s : rtmpServer) (nconn err : string) (rest : list randRead) :
  step s (ConnNew nconn (RandErr err :: rest))
  = Some ({| self := self s; metrics := metrics s;
             conns := <[heapNext s := RtmpConn "" nconn]> (conns s);
             heapNext := S (heapNext s) |},
          [NewRTMPConn (heapNext s) "" nconn], Continue).
Proof. reflexivity. Qed.

(** C1.  Two sockets accepted while the randomness source fails: both
    workers are registered under the empty ID, so the registry holds two
    entries with one ID. *)
Theorem two_failed_allocations_share_an_id
    (addr : nat) (sink : option nat) (err1 err2 : string) :
  conns (outer {| self := addr; metrics := sink; conns := ∅; heapNext := 0 |}
               [ConnNew "10.0.0.1:1" [RandErr err1];
                ConnNew "10.0.0.2:2" [RandErr err2]]).1.1
    = <[1 := RtmpConn "" "10.0.0.2:2"]> (<[0 := RtmpConn "" "10.0.0.1:1"]> ∅)
  ∧ ¬ ids_unique
        (conns (outer {| self := addr; metrics := sink; conns := ∅; heapNext := 0 |}
                      [ConnNew "10.0.0.1:1" [RandErr err1];
                       ConnNew "10.0.0.2:2" [RandErr err2]]).1.1).
Proof.
  split; [reflexivity|].
  intros Hu. cbn in Hu.
  specialize (Hu 0 1 (RtmpConn "" "10.0.0.1:1") (RtmpConn "" "10.0.0.2:2")).
  discriminate Hu; reflexivity.
Qed.

End AdminSpec.

(** * The registry over a whole run *)

Section RunFacts.
Context `{RangeOrder}.

Lemma step_heap_bounded (s s' : rtmpServer) (ev : event)
    (out : list effect) (ctl : control) :
  heap_bounded s → step s ev = Some (s', out, ctl) → heap_bounded s'.
Proof.
  intros Hb. destruct ev as [err|nconn rnd|c|st|id|]; cbn [step].
  - by intros [= <- _ _].
  - destruct (newConnID (conns s) rnd) as [[id e]|]; [|done].
    intros [= <- _ _] p. cbn [conns heapNext].
    intros [Hp|Hp]%lookup_insert_is_Some; [lia|].
    destruct Hp as [_ Hp]. apply Hb in Hp. lia.
  - destruct (conns s !! c); intros [= <- _ _]; [|done].
    intros p. cbn [set_conns conns heapNext].
    intros [_ Hp]%lookup_delete_is_Some. by apply Hb.
  - by intros [= <- _ _].
  - destruct (kickScan id (range (conns s))); intros [= <- _ _]; [|done].
    intros p. cbn [set_conns conns heapNext].
    intros [_ Hp]%lookup_delete_is_Some. by apply Hb.
  - by intros [= <- _ _].
Qed.

(** X2.  A new socket whose ID allocation returns gets a worker at a fresh
    address, with the ID that was allocated, and is entered into the
    registry at that address, which the registry does not hold yet: nothing
    is overwritten, every other entry stays, the registry grows by one
    entry, and the loop goes on. *)
Lemma accept_adds_one_entry (s : rtmpServer) (nconn : string)
    (rnd : list randRead) (id : string) (e : option string) :
  heap_bounded s → newConnID (conns s) rnd = Some (id, e) →
  ∃ s',
    step s (ConnNew nconn rnd)
    = Some (s', [NewRTMPConn (heapNext s) id nconn], Continue)
    ∧ conns s !! heapNext s = None
    ∧ conns s' = <[heapNext s := RtmpConn id nconn]> (conns s)
    ∧ conns s' !! heapNext s = Some (RtmpConn id nconn)
    ∧ (∀ q, q ≠ heapNext s → conns s' !! q = conns s !! q)
    ∧ size (conns s') = S (size (conns s))
    ∧ heapNext s' = S (heapNext s)
    ∧ self s' = self s ∧ metrics s' = metrics s.
Proof.
  intros Hb Hid. cbn [step]. rewrite Hid.
  assert (conns s !! heapNext s = None) as Hfree.
  { destruct (conns s !! heapNext s) eqn:Hl; [|done].
    assert (heapNext s < heapNext s); [|lia]. apply Hb. by rewrite Hl. }
  eexists. split; [done|].
  cbn [conns heapNext self metrics]. split_and!; try done.
  - apply lookup_insert_eq.
  - intros q Hq. by apply lookup_insert_ne.
  - by apply map_size_insert_None.
Qed.

Lemma outer_heap_bounded (evs : list event) :
  ∀ s, heap_bounded s → heap_bounded (outer s evs).1.1.
Proof.
  induction evs as [|ev evs IH]; intros s Hb; [done|].
  cbn [outer].
  destruct (step s ev) as [[[s' out] [ | ]]|] eqn:Hstep; [| |done].
  - specialize (IH s' (step_heap_bounded _ _ _ _ _ Hb Hstep)).
    destruct (outer s' evs) as [[s'' out'] e]. exact IH.
  - exact (step_heap_bounded _ _ _ _ _ Hb Hstep).
Qed.

(** X1.  As long as the randomness source succeeds, a run from the empty
    registry holds at most one entry per ID, all of them at addresses the
    loop has allocated. *)
Lemma registry_consistent_while_rand_succeeds
    (s : rtmpServer) (evs : list event) :
  conns s = ∅ → forallb rand_succeeds evs = true →
  ids_unique (conns (outer s evs).1.1) ∧ heap_bounded (outer s evs).1.1.
Proof.
  intros Hs Hr. split.
  - apply outer_ids_unique; [|done]. rewrite Hs. apply ids_unique_empty.
  - apply outer_heap_bounded. intros p. rewrite Hs, lookup_empty.
    by intros [? ?].
Qed.

(** The loop itself never talks to the metrics sink, and leaves the
    server's own address and its sink as they are. *)
Lemma step_no_metrics (s s' : rtmpServer) (ev : event)
    (out : list effect) (ctl : control) :
  step s ev = Some (s', out, ctl) →
  metrics_calls out = [] ∧ self s' = self s ∧ metrics s' = metrics s.
Proof.
  destruct ev as [err|nconn rnd|c|st|id|]; cbn [step].
  - by intros [= <- <- _].
  - destruct (newConnID (conns s) rnd) as [[id e]|]; [|done].
    by intros [= <- <- _].
  - by destruct (conns s !! c); intros [= <- <- _].
  - by intros [= <- <- _].
  - by destruct (kickScan id (range (conns s))); intros [= <- <- _].
  - by intros [= <- <- _].
Qed.

Lemma outer_no_metrics (evs : list event) :
  ∀ s, metrics_calls (outer s evs).1.2 = []
       ∧ self (outer s evs).1.1 = self s
       ∧ metrics (outer s evs).1.1 = metrics s.
Proof.
  induction evs as [|ev evs IH]; intros s; [done|].
  cbn [outer].
  destruct (step s ev) as [[[s' out] ctl]|] eqn:Hstep; [|done].
  apply step_no_metrics in Hstep as (Hout & Hself & Hsink).
  destruct ctl; [|done].
  specialize (IH s'). destruct (outer s' evs) as [[s'' out'] e].
  cbn [fst snd] in *. destruct IH as (Hout' & Hself' & Hsink').
  unfold metrics_calls in *. rewrite filter_app, Hout, Hout'.
  split_and!; [done|congruence..].
Qed.

End RunFacts.

(** * Start-up and exit *)

(** C9.  With a metrics sink configured, a server that starts and is then
    cancelled calls the sink's hook once when it is constructed and once when
    its event loop is left, and nowhere in between; both calls pass the
    server itself, the one at exit too, where the sink is not told that the
    instance is gone. *)
Theorem metrics_hook_gets_live_instance_at_exit `{RangeOrder}
    (address : string) (m addr : nat) :
  lifecycle None address (Some m) addr [CtxDone]
  = [Log LevelInfo "listener opened on %s" [address];
     OnRTMPServerSet (Some addr); GoRun;
     CtxCancel; ListenerClose; OnRTMPServerSet (Some addr)]
  ∧ ∀ evs,
      metrics_calls (lifecycle None address (Some m) addr evs)
      = match (outer {| self := addr; metrics := Some m; conns := ∅;
                        heapNext := 0 |} evs).2 with
        | Broke => [OnRTMPServerSet (Some addr); OnRTMPServerSet (Some addr)]
        | _ => [OnRTMPServerSet (Some addr)]
        end.
Proof.
  split; [reflexivity|]. intros evs.
  unfold lifecycle, run. cbn [newRTMPServer].
  pose proof (outer_no_metrics evs
    {| self := addr; metrics := Some m; conns := ∅; heapNext := 0 |})
    as (Hout & Hself & Hsink).
  destruct (outer _ evs) as [[s' out] e]. cbn [fst snd] in *.
  unfold metrics_calls in *.
  destruct e; cbn [fst snd]; rewrite !filter_app, ?Hout; try reflexivity.
  unfold runExit. rewrite Hsink, Hself. reflexivity.
Qed.

(** * Worked instances *)

Lemma one_conn_only (q : nat) (e : rtmpConn) :
  conns one_conn_server !! q = Some e → q = 0.
Proof.
  cbn [one_conn_server conns].
  intros [[<- _]|[_ He]]%lookup_insert_Some; [done|].
  by rewrite lookup_empty in He.
Qed.

Lemma one_conn_ids_unique : ids_unique (conns one_conn_server).
Proof.
  intros p q c d Hp%one_conn_only Hq%one_conn_only _. congruence.
Qed.

(** The first draw collides with the registered ID and is redrawn; the second
    one is free. *)
Lemma registry_consistent_while_rand_succeeds_witness :
  ids_unique (conns (@outer map_to_list_order fresh_server busy_run).1.1)
  ∧ conns (@outer map_to_list_order fresh_server busy_run).1.1
    = <[1 := RtmpConn "100000002" "192.0.2.2:50000"]> ∅.
Proof.
  split; [|vm_compute; reflexivity].
  exact (proj1 (@registry_consistent_while_rand_succeeds map_to_list_order
                  fresh_server busy_run eq_refl eq_refl)).
Defined.

Lemma one_conn_heap_bounded : heap_bounded one_conn_server.
Proof. intros p [e He]. apply one_conn_only in He. subst p. cbn. lia. Qed.

Lemma accept_adds_one_entry_witness :
  ∃ s',
    @step map_to_list_order one_conn_server
      (ConnNew "192.0.2.2:50000" [RandOk bytes_two])
    = Some (s', [NewRTMPConn 1 "100000002" "192.0.2.2:50000"], Continue)
    ∧ conns s' !! 1 = Some (RtmpConn "100000002" "192.0.2.2:50000")
    ∧ size (conns s') = 2.
Proof.
  destruct (@accept_adds_one_entry map_to_list_order one_conn_server
              "192.0.2.2:50000" [RandOk bytes_two] "100000002" None
              one_conn_heap_bounded eq_refl)
    as (s' & Hstep & _ & _ & Hnew & _ & Hsize & _).
  exists s'. split_and!; [exact Hstep|exact Hnew|exact Hsize].
Defined.

Lemma newConnID_allocates_fresh_nine_digits_witness :
  @newConnID map_to_list_order (conns one_conn_server)
    [RandOk bytes_one; RandOk bytes_two]
  = Some ("100000002"%string, None).
Proof.
  refine (proj1 (@newConnID_allocates_fresh_nine_digits map_to_list_order
                   (conns one_conn_server) [bytes_one] bytes_two [] _ _)).
  - constructor; [|constructor]. exists 0, one_conn. split; reflexivity.
  - apply (@alreadyPresent_false map_to_list_order). vm_compute. reflexivity.
Defined.

Lemma list_request_snapshots_registry_witness :
  ∃ data,
    @step map_to_list_order one_conn_server
      (APIConnsList (λ _, ServerSessionStateRead))
    = Some (one_conn_server,
            [SendListRes (API.ListRes (Some data) None)], Continue)
    ∧ API.Items data !! "100000001"%string
      = Some (API.ListItem "192.0.2.1:50000" "read")
    ∧ size (API.Items data) = 1.
Proof.
  destruct (@list_request_snapshots_registry map_to_list_order one_conn_server
              (λ _, ServerSessionStateRead) one_conn_ids_unique)
    as (data & Hstep & Hitems & _ & Hsize & _).
  exists data. split; [exact Hstep|]. split.
  - apply (Hitems 0 one_conn). reflexivity.
  - rewrite Hsize. reflexivity.
Defined.

Lemma close_notification_and_kick_commute_witness :
  (@outer map_to_list_order one_conn_server
     [APIConnsKick "100000001"; ConnClose 0]).1.1
  = (@outer map_to_list_order one_conn_server
       [ConnClose 0; APIConnsKick "100000001"]).1.1.
Proof.
  destruct (@close_notification_and_kick_commute map_to_list_order
              one_conn_server 0 one_conn 5 eq_refl
              (λ q e Hq _, one_conn_only q e Hq))
    as (_ & Hkc & Hck & _).
  change (ID one_conn) with "100000001"%string in Hkc, Hck.
  rewrite Hkc, Hck. reflexivity.
Defined.

Module ForwardSpec.
Import Forward.

Section HookSpec.
Variable startPublishing : nat → string → list string → option string.
Variable session : rtspSession.
Variable ctx : ServerHandlerOnPacketRTPCtx.

Abbreviation hook := (OnRTPForward startPublishing session ctx).
Abbreviation relayed := (relayed startPublishing session ctx).
Abbreviation open_fails := (open_fails startPublishing session).

Lemma forwardOne_returned (f f' : forwarder) (next next' : nat) (out : list call) :
  forwardOne startPublishing session ctx f next = (f', next', out, Returned) → relayed f f' out.
Proof.
  unfold forwardOne. case_bool_decide as Hsrc.
  - destruct (client f) as [c|] eqn:Hc.
    + intros [= <- _ <-]. by apply relayed_again.
    + destruct (startPublishing next _ _) eqn:Hsp; [done|].
      intros [= <- _ <-]. by apply (relayed_first _ _ _ f _ next).
  - intros [= <- _ <-]. by apply relayed_other.
Qed.

Lemma forwardOne_panicked (f f' : forwarder) (next next' : nat)
    (out : list call) (err : string) :
  forwardOne startPublishing session ctx f next = (f', next', out, Panicked err) →
  ∃ c, open_fails f c err
       ∧ source f' = source f ∧ destination f' = destination f
       ∧ client f' = Some c
       ∧ out = [StartPublishing c (destination f) (tracks session)].
Proof.
  unfold forwardOne, open_fails. case_bool_decide as Hsrc; [|done].
  destruct (client f) as [c|] eqn:Hc; [done|].
  destruct (startPublishing next _ _) eqn:Hsp; [|done].
  intros [= <- _ <- <-]. by exists next.
Qed.

(** A hook that returns has treated every forwarder as the specification
    says, in slice order. *)
Lemma hook_returned (fs : list forwarder) :
  ∀ next fs' next' out,
    hook fs next = (fs', next', out, Returned) →
    ∃ segs, out = concat segs ∧ Forall3 relayed fs fs' segs.
Proof.
  induction fs as [|f fs IH]; intros next fs' next' out; cbn [OnRTPForward].
  - intros [= <- _ <-]. exists []. split; [done|constructor].
  - destruct (forwardOne _ _ _ f next) as [[[f1 n1] o1] [|err]] eqn:Hone; [|done].
    destruct (hook fs n1) as [[[fs2 n2] o2] r2] eqn:Hrest.
    intros [= <- _ <- ->].
    apply forwardOne_returned in Hone.
    destruct (IH _ _ _ _ Hrest) as (segs & -> & Hall).
    exists (o1 :: segs). split; [done|by constructor].
Qed.

(** A hook that panics has treated the forwarders before the failing one,
    has opened and not written to the failing one, and has not touched the
    ones after it. *)
Lemma hook_panicked (fs : list forwarder) :
  ∀ next fs' next' out err,
    hook fs next = (fs', next', out, Panicked err) →
    ∃ before before' segs f f' rest c,
      fs = before ++ f :: rest
      ∧ fs' = before' ++ f' :: rest
      ∧ source f' = source f ∧ destination f' = destination f
      ∧ client f' = Some c
      ∧ Forall3 relayed before before' segs
      ∧ open_fails f c err
      ∧ out = concat segs ++ [StartPublishing c (destination f) (tracks session)].
Proof.
  induction fs as [|f fs IH]; intros next fs' next' out err;
    cbn [OnRTPForward]; [done|].
  destruct (forwardOne _ _ _ f next) as [[[f1 n1] o1] [|err1]] eqn:Hone.
  - destruct (hook fs n1) as [[[fs2 n2] o2] r2] eqn:Hrest.
    intros [= <- _ <- ->].
    apply forwardOne_returned in Hone.
    destruct (IH _ _ _ _ _ Hrest)
      as (before & before' & segs & g & g' & rest & c & -> & -> & Hsrc & Hdst
          & Hcl & Hall & Hfail & ->).
    exists (f :: before), (f1 :: before'), (o1 :: segs), g, g', rest, c.
    split_and!; try done.
    + by constructor.
    + cbn [concat]. by rewrite app_assoc.
  - intros [= <- _ <- <-].
    apply forwardOne_panicked in Hone as (c & Hfail & Hsrc & Hdst & Hcl & ->).
    exists [], [], [], f, f1, fs, c. split_and!; try done. constructor.
Qed.

(** When no open fails the hook returns. *)
Lemma hook_returns (fs : list forwarder) :
  (∀ c address trks, startPublishing c address trks = None) →
  ∀ next, (hook fs next).2 = Returned.
Proof.
  intros Hok. induction fs as [|f fs IH]; intros next; cbn [OnRTPForward]; [done|].
  destruct (forwardOne _ _ _ f next) as [[[f1 n1] o1] [|err]] eqn:Hone.
  - specialize (IH n1). by destruct (hook fs n1) as [[[fs2 n2] o2] r2].
  - apply forwardOne_panicked in Hone as (c & (_ & _ & Hfail) & _).
    by rewrite Hok in Hfail.
Qed.

(** C8.  On every packet the hook goes through the registered forwarders in
    order.  When it returns, each forwarder whose source is the session's
    path name has been written the packet's track index and payload, after
    being opened towards its destination if it had no client yet, in which
    case it now holds the client that was opened, with its source and
    destination as before; the other forwarders are as they were.
    Otherwise an open has failed: the hook has panicked with that error
    right after the failed open, without a write to that forwarder, which
    holds the client of the failed open, and without a look at the
    forwarders after it.  The hook returns whenever no open fails. *)
Theorem hook_relays_or_panics (fs : list forwarder) (next : nat) :
  match hook fs next with
  | (fs', _, out, Returned) =>
      ∃ segs, out = concat segs ∧ Forall3 relayed fs fs' segs
  | (fs', _, out, Panicked err) =>
      ∃ before before' segs f f' rest c,
        fs = before ++ f :: rest
        ∧ fs' = before' ++ f' :: rest
        ∧ source f' = source f ∧ destination f' = destination f
        ∧ client f' = Some c
        ∧ Forall3 relayed before before' segs
        ∧ open_fails f c err
        ∧ out = concat segs ++ [StartPublishing c (destination f) (tracks session)]
  end
  ∧ ((∀ c address trks, startPublishing c address trks = None) →
     (hook fs next).2 = Returned).
Proof.
  split; [|intros Hok; by apply hook_returns].
  destruct (hook fs next) as [[[fs' next'] out] [|err]] eqn:Hhook.
  - by eapply hook_returned.
  - by eapply hook_panicked.
Qed.

End HookSpec.

Section Duplicates.
Variable startPublishing : nat → string → list string → option string.
Variable session : rtspSession.
Variable ctx : ServerHandlerOnPacketRTPCtx.
Variable dst : string.

Abbreviation hook := (OnRTPForward startPublishing session ctx).
Abbreviation entry := (Forwarder (pathName session) dst).
Abbreviation first_packet := (Forward.first_packet session ctx dst).
Abbreviation later_packet := (Forward.later_packet ctx).

Lemma regiserForward_times_app (n : nat) (src : string) (fs : list forwarder) :
  regiserForward_times n src dst fs = fs ++ replicate n (Forwarder src dst None).
Proof.
  induction n as [|n IH]; cbn [regiserForward_times replicate].
  - by rewrite app_nil_r.
  - rewrite IH. unfold regiserForward.
    rewrite <- app_assoc. f_equal.
    clear IH. induction n as [|n IH]; [done|].
    cbn [replicate app]. by rewrite IH.
Qed.

Hypothesis opens : ∀ c, startPublishing c dst (tracks session) = None.

(** The first packet on [n] fresh entries for the session's stream: [n]
    clients at consecutive addresses, each opened and then written to. *)
Lemma hook_on_fresh_duplicates (n : nat) :
  ∀ next,
    hook (replicate n (entry None)) next
    = ((λ c, entry (Some c)) <$> seq next n, next + n,
       seq next n ≫= first_packet, Returned).
Proof.
  induction n as [|n IH]; intros next.
  - cbn. by rewrite Nat.add_0_r.
  - cbn [replicate OnRTPForward]. unfold forwardOne.
    cbn [source client destination]. rewrite bool_decide_eq_true_2 by done.
    rewrite opens, IH. cbn [seq fmap list_fmap].
    replace (S next + n) with (next + S n) by lia. reflexivity.
Qed.

(** A later packet on the same entries: one write each, no open. *)
Lemma hook_on_open_duplicates (cs : list nat) :
  ∀ next,
    hook ((λ c, entry (Some c)) <$> cs) next
    = ((λ c, entry (Some c)) <$> cs, next, later_packet <$> cs, Returned).
Proof.
  induction cs as [|c cs IH]; intros next; [done|].
  rewrite fmap_cons. cbn [OnRTPForward]. unfold forwardOne.
  cbn [source client destination]. rewrite bool_decide_eq_true_2 by done.
  by rewrite IH.
Qed.

Lemma first_packets_counts (cs : list nat) :
  length (filter is_start (cs ≫= first_packet)) = length cs
  ∧ length (filter is_write (cs ≫= first_packet)) = length cs.
Proof.
  induction cs as [|c cs [IH1 IH2]]; [done|].
  change ((c :: cs) ≫= first_packet)
    with (first_packet c ++ (cs ≫= first_packet)).
  rewrite !filter_app, !length_app, IH1, IH2. done.
Qed.

(** C10.  Registering one source and destination [n] times, starting from
    the empty table, leaves [n] entries, none of them with a client.  On the
    first packet of that source the hook opens [n] clients, one per entry,
    all towards the same destination, and writes the packet to each of them;
    on a later packet it writes the packet [n] times again, once per entry,
    and opens nothing. *)
Theorem duplicate_registrations_relay_n_times (n next : nat) :
  let table := regiserForward_times n (pathName session) dst [] in
  let opened := (λ c, entry (Some c)) <$> seq next n in
  (∀ fs, regiserForward_times n (pathName session) dst fs
         = fs ++ replicate n (entry None))
  ∧ table = replicate n (entry None)
  ∧ length table = n
  ∧ hook table next = (opened, next + n, seq next n ≫= first_packet, Returned)
  ∧ length (filter is_start (seq next n ≫= first_packet)) = n
  ∧ length (filter is_write (seq next n ≫= first_packet)) = n
  ∧ hook opened (next + n)
    = (opened, next + n, later_packet <$> seq next n, Returned)
  ∧ length (later_packet <$> seq next n) = n.
Proof.
  intros table opened.
  assert (table = replicate n (entry None)) as Htable.
  { unfold table. by rewrite regiserForward_times_app. }
  destruct (first_packets_counts (seq next n)) as [Hs Hw].
  rewrite length_seq in Hs, Hw.
  split_and!; try done.
  - intros fs. apply regiserForward_times_app.
  - by rewrite Htable, length_replicate.
  - rewrite Htable. apply hook_on_fresh_duplicates.
  - apply hook_on_open_duplicates.
  - by rewrite length_fmap, length_seq.
Qed.

End Duplicates.
End ForwardSpec.

(** * Worked instances of the forwarding hook *)

Module ForwardExamples.
Import Forward ForwardSpec ForwardInputs.

(** A forwarder of another stream is skipped; the matching one is opened and
    written to. *)
Example hook_opens_then_writes :
  OnRTPForward always_opens live_session packet
    [Forwarder "other.stream" live2 None; Forwarder "live.stream" live2 None] 0
  = ([Forwarder "other.stream" live2 None; Forwarder "live.stream" live2 (Some 0)],
     1,
     [StartPublishing 0 live2 ["video"; "audio"]; WritePacketRTP 0 1 [x80; x60]],
     Returned).
Proof. reflexivity. Qed.

(** A failed open panics before any write, and before the second matching
    forwarder is looked at. *)
Example hook_panics_on_failed_open :
  OnRTPForward never_opens live_session packet
    [Forwarder "live.stream" live2 None; Forwarder "live.stream" live2 None] 0
  = ([Forwarder "live.stream" live2 (Some 0); Forwarder "live.stream" live2 None],
     1,
     [StartPublishing 0 live2 ["video"; "audio"]],
     Panicked "connection refused").
Proof. reflexivity. Qed.

Lemma duplicate_registrations_relay_n_times_witness :
  OnRTPForward always_opens live_session packet
    (regiserForward_times 2 "live.stream" live2 []) 0
  = ([Forwarder "live.stream" live2 (Some 0); Forwarder "live.stream" live2 (Some 1)],
     2,
     [StartPublishing 0 live2 ["video"; "audio"]; WritePacketRTP 0 1 [x80; x60];
      StartPublishing 1 live2 ["video"; "audio"]; WritePacketRTP 1 1 [x80; x60]],
     Returned).
Proof.
  exact (proj1 (proj2 (proj2 (proj2
    (duplicate_registrations_relay_n_times always_opens live_session packet
       live2 (λ _, eq_refl) 2 0))))).
Defined.

End ForwardExamples.

Module FacadeSpec.
Import Facade.

Lemma or_iff_both (A A' B B' : Prop) :
  (A ↔ A') → (B ↔ B') → (A ∨ B ↔ A' ∨ B').
Proof. tauto. Qed.

Lemma select_two {A : Type} (a b : option A) (y : A) :
  y ∈ select [a; b] ↔ a = Some y ∨ b = Some y.
Proof.
  unfold select.
  destruct a as [x|], b as [z|]; cbn;
    rewrite ?elem_of_cons, ?elem_of_nil; split.
  - intros [->|[->|[]]]; auto.
  - intros [[= ->]|[= ->]]; auto.
  - intros [->|[]]; auto.
  - intros [[= ->]|[=]]; auto.
  - intros [->|[]]; auto.
  - intros [[=]|[= ->]]; auto.
  - intros [].
  - intros [[=]|[=]].
Qed.

Section CallsSpec.
Context `{RangeOrder}.









(** The results a call can have split into the two cases of its [select]. *)
Lemma onAPIConnsList_cases (w w' : world) (safeState : nat → ServerSessionState)
    (res : API.rtmpServerAPIConnsListRes) :
  (res, w') ∈ onAPIConnsList w safeState ↔
  (∃ out, askActor w (APIConnsList safeState) = Some (out, w')
          ∧ listResOf out = Some res)
  ∨ (ctxDone w = true ∧ res = terminatedList ∧ w' = w).
Proof.
  unfold onAPIConnsList. rewrite select_two. apply or_iff_both.
  - destruct (askActor w (APIConnsList safeState)) as [[out w1]|]; cbn.
    + destruct (listResOf out) as [r|] eqn:Hr; cbn; split.
      * intros [= -> ->]. by exists out.
      * intros (out' & [= <- <-] & Hres). congruence.
      * done.
      * intros (out' & [= <- <-] & Hres). congruence.
    + split; [done|]. by intros (out' & ? & _).
  - destruct (ctxDone w); split; try done.
    + by intros [= -> ->].
    + by intros (_ & -> & ->).
    + by intros (? & _).
Qed.

Lemma onAPIConnsKick_cases (w w' : world) (id : string)
    (res : API.rtmpServerAPIConnsKickRes) :
  (res, w') ∈ onAPIConnsKick w id ↔
  (∃ out, askActor w (APIConnsKick id) = Some (out, w')
          ∧ kickResOf out = Some res)
  ∨ (ctxDone w = true ∧ res = terminatedKick ∧ w' = w).
Proof.
  unfold onAPIConnsKick. rewrite select_two. apply or_iff_both.
  - destruct (askActor w (APIConnsKick id)) as [[out w1]|]; cbn.
    + destruct (kickResOf out) as [r|] eqn:Hr; cbn; split.
      * intros [= -> ->]. by exists out.
      * intros (out' & [= <- <-] & Hres). congruence.
      * done.
      * intros (out' & [= <- <-] & Hres). congruence.
    + split; [done|]. by intros (out' & ? & _).
  - destruct (ctxDone w); split; try done.
    + by intros [= -> ->].
    + by intros (_ & -> & ->).
    + by intros (? & _).
Qed.


End CallsSpec.



(** Before the context is cancelled the loop takes the request and answers
    it; once it is cancelled, with the loop still at its [select], the same
    call returns "terminated". *)
Example kick_before_and_after_cancellation :
  @onAPIConnsKick map_to_list_order started_world "999999999"
  = [(API.KickRes (Some "not found"%string), started_world)]
  ∧ @onAPIConnsKick map_to_list_order cancelled_world "999999999"
    = [(terminatedKick, cancelled_world)].
Proof. split; reflexivity. Qed.

End FacadeSpec.

(** * More on the allocator and on whole runs of the loop *)

Section AllocatorOutcomes.
Context `{RangeOrder}.

(** X4.  The three ways a call of [newConnID] can go.  It is still drawing
    when every read so far has succeeded with an ID that is taken.  It
    returns an ID without an error exactly for the first draw whose ID is
    free, after draws that were all taken, and reads nothing after it.  And
    it returns the empty ID with the error of the first failed read, even
    after draws that were retried. *)
Theorem newConnID_outcomes (m : registry) (rnd : list randRead) :
  match newConnID m rnd with
  | None =>
      ∃ pre, rnd = RandOk <$> pre
             ∧ Forall (λ b, id_registered m (id_of_bytes b)) pre
  | Some (id, None) =>
      ∃ pre b rest,
        rnd = (RandOk <$> pre) ++ RandOk b :: rest
        ∧ Forall (λ b', id_registered m (id_of_bytes b')) pre
        ∧ ¬ id_registered m (id_of_bytes b)
        ∧ id = id_of_bytes b
  | Some (id, Some err) =>
      ∃ pre rest,
        rnd = (RandOk <$> pre) ++ RandErr err :: rest
        ∧ Forall (λ b, id_registered m (id_of_bytes b)) pre
        ∧ id = ""%string
  end.
Proof.
  induction rnd as [|[b|err] rnd IH]; cbn [newConnID].
  - by exists [].
  - destruct (alreadyPresent m (id_of_bytes b)) eqn:Hb.
    + apply alreadyPresent_true in Hb.
      destruct (newConnID m rnd) as [[id [err|]]|].
      * destruct IH as (pre & rest & -> & Hpre & ->).
        exists (b :: pre), rest. by split_and!; [|constructor|].
      * destruct IH as (pre & b' & rest & -> & Hpre & Hfree & ->).
        exists (b :: pre), b', rest. by split_and!; [|constructor| |].
      * destruct IH as (pre & -> & Hpre).
        exists (b :: pre). by split; [|constructor].
    + apply alreadyPresent_false in Hb. by exists [], b, rnd.
  - by exists [], rnd.
Qed.

End AllocatorOutcomes.

Section WorkersClosedOnce.
Context `{RangeOrder}.

Lemma step_heapNext_mono (s s' : rtmpServer) (ev : event)
    (out : list effect) (ctl : control) :
  step s ev = Some (s', out, ctl) → heapNext s ≤ heapNext s'.
Proof.
  destruct ev as [err|nconn rnd|c|st|id|]; cbn [step].
  - by intros [= <- _ _].
  - destruct (newConnID (conns s) rnd) as [[id e]|]; [|done].
    intros [= <- _ _]. cbn. lia.
  - by destruct (conns s !! c); intros [= <- _ _].
  - by intros [= <- _ _].
  - by destruct (kickScan id (range (conns s))); intros [= <- _ _].
  - by intros [= <- _ _].
Qed.

(** An iteration closes at most one worker, one that is registered when the
    iteration starts and is not when it ends. *)
Lemma step_closed (s s' : rtmpServer) (ev : event)
    (out : list effect) (ctl : control) :
  step s ev = Some (s', out, ctl) →
  closed_workers out = []
  ∨ ∃ p, closed_workers out = [p] ∧ is_Some (conns s !! p) ∧ conns s' !! p = None.
Proof.
  destruct ev as [err|nconn rnd|c|st|id|]; cbn [step].
  - intros [= _ <- _]. by left.
  - destruct (newConnID (conns s) rnd) as [[id e]|]; [|done].
    intros [= _ <- _]. by left.
  - destruct (conns s !! c); intros [= _ <- _]; by left.
  - intros [= _ <- _]. by left.
  - destruct (kickScan id (range (conns s))) as [p|] eqn:Hscan;
      intros [= <- <- _]; [|by left].
    right. exists p. split_and!; [done| |].
    + apply kickScan_range_Some in Hscan as (c & -> & _). by eexists.
    + cbn [set_conns conns]. apply lookup_delete_eq.
  - intros [= _ <- _]. by left.
Qed.

(** An address that is free and already passed by the allocator stays free. *)
Lemma step_stays_free (s s' : rtmpServer) (ev : event)
    (out : list effect) (ctl : control) (q : nat) :
  step s ev = Some (s', out, ctl) →
  q < heapNext s → conns s !! q = None → conns s' !! q = None.
Proof.
  intros Hstep Hq Hfree. revert Hstep.
  destruct ev as [err|nconn rnd|c|st|id|]; cbn [step].
  - by intros [= <- _ _].
  - destruct (newConnID (conns s) rnd) as [[id e]|]; [|done].
    intros [= <- _ _]. cbn [conns]. rewrite lookup_insert_ne by lia. done.
  - destruct (conns s !! c); intros [= <- _ _]; [|done].
    cbn [set_conns conns]. apply lookup_delete_None. by right.
  - by intros [= <- _ _].
  - destruct (kickScan id (range (conns s))); intros [= <- _ _]; [|done].
    cbn [set_conns conns]. apply lookup_delete_None. by right.
  - by intros [= <- _ _].
Qed.

(** What is registered after an iteration was registered before it, or is
    the worker the iteration has allocated. *)
Lemma step_registered_origin (s s' : rtmpServer) (ev : event)
    (out : list effect) (ctl : control) (q : nat) :
  step s ev = Some (s', out, ctl) →
  is_Some (conns s' !! q) → is_Some (conns s !! q) ∨ q = heapNext s.
Proof.
  destruct ev as [err|nconn rnd|c|st|id|]; cbn [step].
  - intros [= <- _ _]. by left.
  - destruct (newConnID (conns s) rnd) as [[id e]|]; [|done].
    intros [= <- _ _]. cbn [conns].
    intros [?|[_ ?]]%lookup_insert_is_Some; [by right|by left].
  - destruct (conns s !! c) eqn:Hc; intros [= <- _ _]; [|by left].
    cbn [set_conns conns]. intros [_ ?]%lookup_delete_is_Some. by left.
  - intros [= <- _ _]. by left.
  - destruct (kickScan id (range (conns s))); intros [= <- _ _]; [|by left].
    cbn [set_conns conns]. intros [_ ?]%lookup_delete_is_Some. by left.
  - intros [= <- _ _]. by left.
Qed.

Lemma outer_stays_free (evs : list event) :
  ∀ s q, q < heapNext s → conns s !! q = None →
         conns (outer s evs).1.1 !! q = None.
Proof.
  induction evs as [|ev evs IH]; intros s q Hq Hfree; [done|].
  cbn [outer].
  destruct (step s ev) as [[[s' out] [ | ]]|] eqn:Hstep; [| |done].
  - pose proof (step_heapNext_mono _ _ _ _ _ Hstep) as Hmono.
    pose proof (step_stays_free _ _ _ _ _ q Hstep Hq Hfree) as Hfree'.
    specialize (IH s' q ltac:(lia) Hfree').
    by destruct (outer s' evs) as [[s'' out'] e].
  - by eapply step_stays_free.
Qed.

(** Whatever a run closes, it closes once, and it is a worker that was
    registered at the start or allocated during the run, and is registered
    no more at the end. *)
Lemma outer_closed (evs : list event) :
  ∀ s, heap_bounded s →
    NoDup (closed_workers (outer s evs).1.2)
    ∧ ∀ q, q ∈ closed_workers (outer s evs).1.2 →
        (is_Some (conns s !! q) ∨ heapNext s ≤ q)
        ∧ conns (outer s evs).1.1 !! q = None.
Proof.
  induction evs as [|ev evs IH]; intros s Hb.
  { split; [constructor|]. intros q Hq. by apply elem_of_nil in Hq. }
  cbn [outer].
  destruct (step s ev) as [[[s' out] ctl]|] eqn:Hstep;
    [|split; [constructor|intros q Hq; by apply elem_of_nil in Hq]].
  pose proof (step_heapNext_mono _ _ _ _ _ Hstep) as Hmono.
  pose proof (step_heap_bounded _ _ _ _ _ Hb Hstep) as Hb'.
  pose proof (step_closed _ _ _ _ _ Hstep) as Hclosed.
  destruct ctl.
  - specialize (IH s' Hb') as [Hnd Hrest].
    pose proof (outer_stays_free evs s') as Hfree.
    destruct (outer s' evs) as [[s'' out'] e]. cbn [fst snd] in *.
    unfold closed_workers in *. rewrite omap_app.
    destruct Hclosed as [->|(p & -> & Hp & Hgone)]; cbn [app].
    + split; [done|]. intros q Hq. destruct (Hrest q Hq) as [[Hq'|Hq'] Hend].
      * split; [|done].
        destruct (decide (q = heapNext s)) as [->|Hne]; [right; lia|].
        left. by destruct (step_registered_origin _ _ _ _ _ q Hstep Hq').
      * split; [right; lia|done].
    + assert (p < heapNext s) as Hlt by (by apply Hb).
      split.
      * apply NoDup_cons. split; [|done]. intros Hin.
        destruct (Hrest p Hin) as [[Hp'|Hp'] _]; [|lia].
        rewrite Hgone in Hp'. by destruct Hp'.
      * intros q [->|Hq]%elem_of_cons.
        -- split; [by left|]. apply Hfree; [lia|done].
        -- destruct (Hrest q Hq) as [[Hq'|Hq'] Hend]; (split; [|done]).
           ++ destruct (decide (q = heapNext s)) as [->|Hne]; [right; lia|].
              left. by destruct (step_registered_origin _ _ _ _ _ q Hstep Hq').
           ++ right. lia.
  - cbn [fst snd]. destruct Hclosed as [->|(p & -> & Hp & Hgone)].
    + split; [constructor|]. intros q Hq. by apply elem_of_nil in Hq.
    + split; [apply NoDup_singleton|].
      intros q ->%list_elem_of_singleton. by split; [left|].
Qed.

End WorkersClosedOnce.

Section WholeRuns.
Context `{RangeOrder}.

Lemma run_closed_workers (s : rtmpServer) (evs : list event) :
  (run s evs).1.1 = (outer s evs).1.1
  ∧ closed_workers (run s evs).1.2 = closed_workers (outer s evs).1.2.
Proof.
  unfold run. destruct (outer s evs) as [[s' out] [ | | ]]; cbn [fst snd]; try done.
  split; [done|]. unfold closed_workers, runExit. rewrite omap_app.
  destruct (metrics s'); cbn; by rewrite app_nil_r.
Qed.

(** X5.  Over a whole run, exit included, the server calls the close
    operation of a worker at most once, and only for a worker that was
    registered when the run started or that the run has allocated; such a
    worker is registered no more when the run ends. *)
Theorem run_closes_each_worker_once (s : rtmpServer) (evs : list event) :
  heap_bounded s →
  NoDup (closed_workers (run s evs).1.2)
  ∧ ∀ q, q ∈ closed_workers (run s evs).1.2 →
      (is_Some (conns s !! q) ∨ heapNext s ≤ q)
      ∧ conns (run s evs).1.1 !! q = None.
Proof.
  intros Hb. destruct (run_closed_workers s evs) as [-> ->].
  by apply outer_closed.
Qed.

Lemma outer_app (evs1 : list event) :
  ∀ s s1 out1 evs2,
    outer s evs1 = (s1, out1, Parked) →
    outer s (evs1 ++ evs2)
    = ((outer s1 evs2).1.1, out1 ++ (outer s1 evs2).1.2, (outer s1 evs2).2).
Proof.
  induction evs1 as [|ev evs1 IH]; intros s s1 out1 evs2; cbn [outer app].
  - intros [= <- <-]. by destruct (outer s evs2) as [[s2 out2] e].
  - destruct (step s ev) as [[[s' out] [ | ]]|]; [| |done].
    + destruct (outer s' evs1) as [[s'' out'] e] eqn:Hrest.
      intros [= <- <- ->]. rewrite (IH _ _ _ evs2 Hrest).
      by rewrite app_assoc.
    + done.
Qed.

Lemma step_no_listener_close (s s' : rtmpServer) (ev : event)
    (out : list effect) (ctl : control) :
  step s ev = Some (s', out, ctl) → filter is_listener_close out = [].
Proof.
  destruct ev as [err|nconn rnd|c|st|id|]; cbn [step].
  - by intros [= _ <- _].
  - destruct (newConnID (conns s) rnd) as [[id e]|]; [|done].
    by intros [= _ <- _].
  - by destruct (conns s !! c); intros [= _ <- _].
  - by intros [= _ <- _].
  - by destruct (kickScan id (range (conns s))); intros [= _ <- _].
  - by intros [= _ <- _].
Qed.

Lemma outer_no_listener_close (evs : list event) :
  ∀ s, filter is_listener_close (outer s evs).1.2 = [].
Proof.
  induction evs as [|ev evs IH]; intros s; [done|].
  cbn [outer].
  destruct (step s ev) as [[[s' out] ctl]|] eqn:Hstep; [|done].
  apply step_no_listener_close in Hstep.
  destruct ctl; [|done].
  specialize (IH s'). destruct (outer s' evs) as [[s'' out'] e].
  cbn [fst snd] in *. by rewrite filter_app, Hstep, IH.
Qed.

(** X6.  The loop is left at the first shutdown event, be it the cancelled
    context or an error of the accept loop (which is logged): the events
    after it are never handled, the exit sequence runs once, and the workers
    that are registered at that point stay registered and are not closed.
    The listener is closed once in the whole run, in the exit sequence. *)
Theorem run_leaves_at_first_shutdown_event
    (s s1 : rtmpServer) (evs1 evs2 : list event) (out1 : list effect)
    (err : string) :
  outer s evs1 = (s1, out1, Parked) →
  run s (evs1 ++ CtxDone :: evs2) = (s1, out1 ++ runExit s1, Broke)
  ∧ run s (evs1 ++ AcceptErr err :: evs2)
    = (s1, (out1 ++ [Log LevelError "%s" [err]]) ++ runExit s1, Broke)
  ∧ closed_workers (runExit s1) = []
  ∧ filter is_listener_close (run s (evs1 ++ CtxDone :: evs2)).1.2
    = [ListenerClose].
Proof.
  intros Hpark. unfold run.
  rewrite !(outer_app _ _ _ _ _ Hpark). cbn [outer step fst snd].
  split_and!; try by rewrite ?app_nil_r.
  - unfold runExit. by destruct (metrics s1).
  - pose proof (outer_no_listener_close evs1 s) as Hnone.
    rewrite Hpark in Hnone. cbn [fst snd] in Hnone.
    rewrite app_nil_r, filter_app, Hnone.
    unfold runExit. by destruct (metrics s1).
Qed.

End WholeRuns.

Section ListedConnections.
Context `{RangeOrder}.
Variable safeState : nat → ServerSessionState.

Abbreviation assign := (assignItem safeState).

Lemma items_present (l : list (nat * rtmpConn)) :
  ∀ acc id,
    is_Some (acc !! id) ∨ (∃ pc, pc ∈ l ∧ ID pc.2 = id) →
    is_Some (foldl assign acc l !! id).
Proof.
  induction l as [|x l IH]; intros acc id Hid; cbn [foldl].
  - destruct Hid as [?|(pc & Hin & _)]; [done|]. by apply elem_of_nil in Hin.
  - apply IH. destruct Hid as [Hacc|(pc & [->|Hin]%elem_of_cons & Hpc)].
    + left. unfold assignItem. apply lookup_insert_is_Some'. by right.
    + left. unfold assignItem. rewrite Hpc. apply lookup_insert_is_Some'. by left.
    + right. by exists pc.
Qed.

Lemma items_size_le (l : list (nat * rtmpConn)) :
  ∀ acc, size (foldl assign acc l) ≤ length l + size acc.
Proof.
  induction l as [|x l IH]; intros acc; cbn [foldl length]; [lia|].
  etrans; [apply IH|]. unfold assignItem. rewrite map_size_insert.
  destruct (acc !! ID x.2); cbn; lia.
Qed.

(** The keys of the answer are the registered IDs. *)
Lemma listData_keys (m : registry) (id : string) :
  is_Some (API.Items (listData safeState m) !! id) ↔ id_registered m id.
Proof.
  cbn [listData API.Items]. split.
  - intros [item Hit].
    apply items_origin in Hit as [Hemp|([p c] & Hin & Hid & _)].
    + by rewrite lookup_empty in Hemp.
    + exists p, c. by apply elem_of_range in Hin.
  - intros (p & c & Hpc & Hid). apply items_present. right.
    exists (p, c). by split; [apply elem_of_range|].
Qed.

Lemma listData_size_unique (m : registry) :
  ids_unique m → size (API.Items (listData safeState m)) = size m.
Proof.
  intros Hu. cbn [listData API.Items]. rewrite items_size.
  - rewrite map_size_empty, length_range. lia.
  - by apply ids_unique_range.
  - intros pc _. apply lookup_empty.
Qed.

(** X7.  Whatever the registry holds, also several connections under one
    ID, the keys of a list answer are exactly the IDs that are registered,
    every item shows the address and state of a registered connection with
    that ID, and there are at most as many items as connections. *)
Theorem list_answer_keys_are_registered_ids (s : rtmpServer) :
  ∃ data,
    step s (APIConnsList safeState)
      = Some (s, [SendListRes (API.ListRes (Some data) None)], Continue)
    ∧ (∀ id, is_Some (API.Items data !! id) ↔ id_registered (conns s) id)
    ∧ (∀ id item, API.Items data !! id = Some item →
         ∃ p c, conns s !! p = Some c ∧ ID c = id
                ∧ item = API.ListItem (RemoteAddr c) (stateString (safeState p)))
    ∧ size (API.Items data) ≤ size (conns s).
Proof.
  exists (listData safeState (conns s)). split_and!; [done| | |].
  - intros id. apply listData_keys.
  - cbn [listData API.Items]. intros id item Hit.
    apply items_origin in Hit as [Hemp|([p c] & Hin & Hid & ->)].
    + by rewrite lookup_empty in Hemp.
    + exists p, c. by apply elem_of_range in Hin.
  - cbn [listData API.Items]. etrans; [apply items_size_le|].
    rewrite map_size_empty, length_range. lia.
Qed.

(** X8.  A socket whose ID allocation succeeds is in the very next list
    answer, under the ID it was given, with the remote address of the socket
    and the state of its worker. *)
Theorem accepted_connection_is_listed
    (s : rtmpServer) (nconn : string) (rnd : list randRead) (id : string) :
  newConnID (conns s) rnd = Some (id, None) →
  ∃ s' data,
    outer s [ConnNew nconn rnd; APIConnsList safeState]
    = (s', [NewRTMPConn (heapNext s) id nconn;
            SendListRes (API.ListRes (Some data) None)], Parked)
    ∧ conns s' !! heapNext s = Some (RtmpConn id nconn)
    ∧ API.Items data !! id
      = Some (API.ListItem nconn (stateString (safeState (heapNext s)))).
Proof.
  intros Hid. cbn [outer step]. rewrite Hid. cbn [conns app].
  eexists _, _. split_and!; [done|apply lookup_insert_eq|].
  apply newConnID_ok in Hid as (b & _ & _ & Hfresh).
  cbn [listData API.Items].
  apply (items_lookup safeState _ ∅ (heapNext s, RtmpConn id nconn)).
  - apply elem_of_range, lookup_insert_eq.
  - intros [q d] Hq%elem_of_range Hd. cbn in Hd.
    apply lookup_insert_Some in Hq as [[<- <-]|[_ Hq]]; [done|].
    destruct Hfresh. by exists q, d.
Qed.

(** X9.  With at most one entry per ID, a kick of a registered ID takes the
    ID out of the registry for good: the next list answer has one item less
    and none under that ID, and a second kick of the ID is answered
    "not found" and closes nothing. *)
Theorem kicked_connection_is_gone (s : rtmpServer) (id : string) :
  ids_unique (conns s) → id_registered (conns s) id →
  ∃ p s' data,
    outer s [APIConnsKick id; APIConnsList safeState]
    = (s', [ConnCloseCall p; SendKickRes (API.KickRes None);
            SendListRes (API.ListRes (Some data) None)], Parked)
    ∧ API.Items data !! id = None
    ∧ size (API.Items data) = pred (size (conns s))
    ∧ outer s [APIConnsKick id; APIConnsKick id]
      = (s', [ConnCloseCall p; SendKickRes (API.KickRes None);
              SendKickRes (API.KickRes (Some "not found"%string))], Parked).
Proof.
  intros Hu Hreg.
  destruct (kickScan id (range (conns s))) as [p|] eqn:Hscan;
    [|by apply kickScan_range_None in Hscan].
  destruct (kickScan_range_Some _ _ _ Hscan) as (c & Hpc & Hc).
  assert (¬ id_registered (delete p (conns s)) id) as Hgone.
  { intros (q & d & [Hne Hq]%lookup_delete_Some & Hd).
    apply Hne. eapply Hu; [done..|congruence]. }
  exists p, (set_conns s (delete p (conns s))),
    (listData safeState (delete p (conns s))).
  cbn [outer step]. rewrite Hscan. cbn [step set_conns conns app].
  split_and!.
  - done.
  - destruct (API.Items _ !! id) eqn:Hit; [|done].
    destruct Hgone. apply listData_keys. by rewrite Hit.
  - rewrite listData_size_unique by (by apply ids_unique_delete).
    apply map_size_delete_Some. by rewrite Hpc.
  - by apply kickScan_range_None in Hgone as ->.
Qed.

End ListedConnections.

Section ListedTwice.
Context `{RangeOrder}.

(** An answer whose registry holds connections under one ID only has one
    item. *)
Lemma listData_one_id (safeState : nat → ServerSessionState) (m : registry)
    (id : string) :
  id_registered m id → (∀ p c, m !! p = Some c → ID c = id) →
  size (API.Items (listData safeState m)) = 1.
Proof.
  intros Hreg Hall.
  apply (listData_keys safeState) in Hreg as [item Hitem].
  replace (API.Items (listData safeState m))
    with ({[ id := item ]} : gmap string API.rtmpServerAPIConnsListItem).
  { apply map_size_singleton. }
  apply map_eq. intros k. destruct (decide (k = id)) as [->|Hk].
  - by rewrite lookup_singleton_eq.
  - rewrite lookup_singleton_ne by done. symmetry.
    apply eq_None_not_Some. intros (p & c & Hpc & Hid)%listData_keys.
    apply Hk. rewrite <- Hid. by eapply Hall.
Qed.

(** C5.  Two sockets accepted while the randomness source fails, then a
    list request: the registry holds two connections, both under the empty
    ID, and the answer has one item, not two, whichever way the registry is
    iterated; the item shows one of the two remote addresses. *)
Theorem list_after_failed_allocations_misses_a_connection
    (addr : nat) (sink : option nat) (err1 err2 : string)
    (safeState : nat → ServerSessionState) :
  ∃ s data item,
    outer {| self := addr; metrics := sink; conns := ∅; heapNext := 0 |}
          [ConnNew "10.0.0.1:1" [RandErr err1];
           ConnNew "10.0.0.2:2" [RandErr err2];
           APIConnsList safeState]
    = (s, [NewRTMPConn 0 "" "10.0.0.1:1"; NewRTMPConn 1 "" "10.0.0.2:2";
           SendListRes (API.ListRes (Some data) None)], Parked)
    ∧ conns s !! 0 = Some (RtmpConn "" "10.0.0.1:1")
    ∧ conns s !! 1 = Some (RtmpConn "" "10.0.0.2:2")
    ∧ size (conns s) = 2
    ∧ size (API.Items data) = 1
    ∧ API.Items data !! ""%string = Some item
    ∧ (item = API.ListItem "10.0.0.1:1" (stateString (safeState 0))
       ∨ item = API.ListItem "10.0.0.2:2" (stateString (safeState 1))).
Proof.
  set (m := <[1 := RtmpConn "" "10.0.0.2:2"]>
              (<[0 := RtmpConn "" "10.0.0.1:1"]> (∅ : registry))).
  assert (∀ p c, m !! p = Some c →
            (p = 0 ∧ c = RtmpConn "" "10.0.0.1:1")
            ∨ (p = 1 ∧ c = RtmpConn "" "10.0.0.2:2")) as Hm.
  { intros p c. unfold m.
    intros [[<- <-]|[_ [[<- <-]|[_ Hp]]%lookup_insert_Some]]%lookup_insert_Some.
    - by right.
    - by left.
    - by rewrite lookup_empty in Hp. }
  assert (id_registered m "") as Hreg.
  { exists 0, (RtmpConn "" "10.0.0.1:1"). by split. }
  pose proof Hreg as [item Hitem]%(listData_keys safeState).
  exists {| self := addr; metrics := sink; conns := m; heapNext := 2 |},
    (listData safeState m), item.
  split_and!; try done.
  - eapply listData_one_id; [exact Hreg|].
    by intros p c [[_ ->]|[_ ->]]%Hm.
  - cbn [listData API.Items] in Hitem.
    apply items_origin in Hitem as [Hemp|([p c] & Hin & _ & ->)].
    { by rewrite lookup_empty in Hemp. }
    apply elem_of_range, Hm in Hin as [[-> ->]|[-> ->]]; [by left|by right].
Qed.

End ListedTwice.

(** * More on the facade *)

Module FacadeMore.
Import Facade.

Section Progress.
Context `{RangeOrder}.

(** [run] cancels the context before it returns: a loop that is gone means
    a context that is cancelled, in every world that can be reached. *)
Lemma loop_gone_means_cancelled (w0 w : world) :
  rtc world_step w0 w →
  is_Some (actor w0) ∨ ctxDone w0 = true →
  is_Some (actor w) ∨ ctxDone w = true.
Proof.
  induction 1 as [w|w w1 w2 Hstep _ IH]; [done|].
  intros Hinv. apply IH.
  destruct Hstep; cbn; try (by right); try (by left); done.
Qed.

(** X10.  From a server whose loop has been started, whatever happens
    around them, the two administrative calls and the close notification
    of a worker are never stuck with no case of their [select] able to
    proceed: while the loop is there it can take the request, and once it
    is gone the context is cancelled. *)
Theorem facade_calls_can_always_proceed (w0 w : world) :
  is_Some (actor w0) ∨ ctxDone w0 = true →
  rtc world_step w0 w →
  (∀ safeState, onAPIConnsList w safeState ≠ [])
  ∧ (∀ id, onAPIConnsKick w id ≠ [])
  ∧ (∀ c, onConnClose w c ≠ []).
Proof.
  intros Hinv Hsteps.
  pose proof (loop_gone_means_cancelled _ _ Hsteps Hinv) as Hinv'.
  destruct (ctxDone w) eqn:Hdone.
  - unfold onAPIConnsList, onAPIConnsKick, onConnClose.
    rewrite Hdone. split_and!.
    + intros st. by destruct (askActor w _) as [[out w1]|];
        [cbn; destruct (listResOf out)|].
    + intros id. by destruct (askActor w _) as [[out w1]|];
        [cbn; destruct (kickResOf out)|].
    + intros c. by destruct (askActor w _) as [[out w1]|].
  - destruct Hinv' as [[s Hs]|?]; [|done].
    unfold onAPIConnsList, onAPIConnsKick, onConnClose, askActor.
    rewrite Hs. cbn [takes]. rewrite Hdone. cbn [negb]. split_and!.
    + intros st. by cbn.
    + intros id. cbn [step].
      by destruct (kickScan id (range (conns s))).
    + intros c. cbn [step].
      by destruct (conns s !! c).
Qed.

Lemma world_eq (w w' : world) :
  ctxDone w' = ctxDone w → actor w' = actor w →
  acceptor w' = acceptor w → workers w' = workers w → w' = w.
Proof. destruct w, w'; cbn; congruence. Qed.

Lemma rtmpServer_eq (s s' : rtmpServer) :
  self s' = self s → metrics s' = metrics s → conns s' = conns s →
  heapNext s' = heapNext s → s' = s.
Proof. destruct s, s'; cbn; congruence. Qed.

(** What an iteration for a close notification leaves. *)
Lemma step_ConnClose (s : rtmpServer) (c : nat) :
  ∃ s', step s (ConnClose c) = Some (s', [], Continue)
        ∧ conns s' = delete c (conns s)
        ∧ self s' = self s ∧ metrics s' = metrics s
        ∧ heapNext s' = heapNext s.
Proof.
  cbn [step]. destruct (conns s !! c) as [d|] eqn:Hc.
  - eexists. split; [done|]. by destruct s.
  - exists s. split; [done|]. by rewrite delete_id.
Qed.

(** X11.  A close notification of a worker, sent while the context is not
    cancelled, reaches the loop, and the registry is then the one before
    without that worker, nothing else of the server changed; sent once the
    context is cancelled, it is given up and nothing changes. *)
Theorem worker_close_notification_outcomes (w w' : world) (c : nat) :
  w' ∈ onConnClose w c ↔
  (ctxDone w = false
   ∧ ∃ s s', actor w = Some s ∧ actor w' = Some s'
             ∧ conns s' = delete c (conns s)
             ∧ self s' = self s ∧ metrics s' = metrics s
             ∧ heapNext s' = heapNext s
             ∧ ctxDone w' = false ∧ acceptor w' = acceptor w
             ∧ workers w' = workers w)
  ∨ (ctxDone w = true ∧ w' = w).
Proof.
  unfold onConnClose. rewrite FacadeSpec.select_two.
  apply FacadeSpec.or_iff_both.
  - unfold askActor. cbn [takes].
    destruct (actor w) as [s|]; cbn [mbind option_bind].
    + destruct (ctxDone w) eqn:Hdone; cbn [negb].
      { split; [done|]. by intros [? _]. }
      destruct (step_ConnClose s c) as (s1 & -> & Hconns & Hself & Hm & Hh).
      cbn. split.
      * intros [= <-]. split; [done|]. by exists s, s1.
      * intros (_ & s0 & s2 & [= <-] & Hs2 & Hc2 & Hself2 & Hm2 & Hh2
                & Hd & Ha & Hw).
        f_equal. apply world_eq; cbn; try done.
        rewrite Hs2. f_equal. apply rtmpServer_eq; congruence.
    + split; [done|]. by intros (_ & s0 & s1 & ? & _).
  - destruct (ctxDone w); split; try done.
    + by intros [= <-].
    + by intros [_ ->].
    + by intros [? _].
Qed.



End Progress.
End FacadeMore.


(** * More on the forwarding hook *)

Module ForwardMore.
Import Forward.

Section Table.
Variable startPublishing : nat → string → list string → option string.
Variable session : rtspSession.
Variable ctx : ServerHandlerOnPacketRTPCtx.

Abbreviation hook := (OnRTPForward startPublishing session ctx).
Abbreviation one := (forwardOne startPublishing session ctx).

Lemma forwardOne_shape (f : forwarder) (next : nat) :
  source (one f next).1.1.1 = source f
  ∧ destination (one f next).1.1.1 = destination f
  ∧ (is_Some (client f) → (one f next).1.1.1 = f)
  ∧ (serves session f = false → (one f next).1.1.1 = f)
  ∧ unopened session (one f next).1.1.1 = false
  ∧ next ≤ (one f next).1.1.2.
Proof.
  unfold forwardOne, unopened, serves.
  destruct (bool_decide (source f = pathName session)) eqn:Hsrc.
  - destruct (client f) as [c|] eqn:Hc.
    + cbn [fst snd]. rewrite Hsrc, Hc. by split_and!.
    + destruct (startPublishing next _ _); cbn [fst snd set_client source client];
        rewrite Hsrc; (split_and!; [done|done|by intros [? ?]|done|done|lia]).
  - cbn [fst snd]. rewrite Hsrc. by split_and!.
Qed.

(** The shape of the table after a call, returned or panicked. *)
Lemma hook_shape (fs : list forwarder) :
  ∀ next,
    length (hook fs next).1.1.1 = length fs
    ∧ (∀ i f f', fs !! i = Some f → (hook fs next).1.1.1 !! i = Some f' →
         source f' = source f ∧ destination f' = destination f
         ∧ (is_Some (client f) → f' = f)
         ∧ (serves session f = false → f' = f))
    ∧ next ≤ (hook fs next).1.1.2
    ∧ ((hook fs next).2 = Returned →
       Forall (λ f', unopened session f' = false) (hook fs next).1.1.1).
Proof.
  induction fs as [|f fs IH]; intros next.
  { cbn. split_and!; [done| |lia|by constructor]. by intros i f f' Hf. }
  cbn [OnRTPForward].
  pose proof (forwardOne_shape f next)
    as (Hsrc & Hdst & Hcl & Hother & Hopen & Hnext).
  destruct (one f next) as [[[f1 n1] o1] [|err]] eqn:Hone; cbn [fst snd] in *.
  - specialize (IH n1) as (Hlen & Hidx & Hmono & Hret).
    destruct (hook fs n1) as [[[fs2 n2] o2] r2]. cbn [fst snd length] in *.
    split_and!; [by rewrite Hlen| |lia|].
    + intros [|i] g g'; cbn.
      * by intros [= <-] [= <-].
      * apply Hidx.
    + intros Hr. constructor; [done|by apply Hret].
  - cbn [length]. split_and!; [done| |done|done].
    intros [|i] g g'; cbn.
    + by intros [= <-] [= <-].
    + intros Hg Hg'. assert (g' = g) as -> by congruence. by split_and!.
Qed.

(** X13.  Whether it returns or panics, a call of the hook keeps the table
    as long as it was, keeps the source and destination of every forwarder,
    and changes neither a forwarder that has a client nor one of another
    stream; client addresses are handed out upwards.  When it returns, no
    forwarder of the session's stream is left without a client. *)
Theorem hook_keeps_the_table (fs : list forwarder) (next : nat) :
  length (hook fs next).1.1.1 = length fs
  ∧ (∀ i f f', fs !! i = Some f → (hook fs next).1.1.1 !! i = Some f' →
       source f' = source f ∧ destination f' = destination f
       ∧ (is_Some (client f) → f' = f)
       ∧ (serves session f = false → f' = f))
  ∧ next ≤ (hook fs next).1.1.2
  ∧ ((hook fs next).2 = Returned →
     Forall (λ f', unopened session f' = false) (hook fs next).1.1.1).
Proof. apply hook_shape. Qed.

(** A table without a forwarder that still has to be opened: the hook
    returns, whatever [StartPublishing] would answer, without a call of it,
    and leaves the table and the allocator as they are. *)
Lemma hook_on_opened_table (fs : list forwarder) :
  Forall (λ f, unopened session f = false) fs →
  ∀ next,
    (hook fs next).1.1.1 = fs ∧ (hook fs next).1.1.2 = next
    ∧ (hook fs next).2 = Returned
    ∧ filter is_start (hook fs next).1.2 = []
    ∧ length (hook fs next).1.2 = length (filter (serves session) fs).
Proof.
  induction 1 as [|f fs Hf _ IH]; intros next; [done|].
  cbn [OnRTPForward]. unfold forwardOne.
  specialize (IH next) as (Hfs & Hn & Hr & Hst & Hlen).
  rewrite filter_cons. unfold unopened in Hf.
  destruct (serves session f) eqn:Hs.
  - unfold serves in Hs. rewrite Hs.
    destruct (client f) as [c|] eqn:Hc; [|done].
    destruct (hook fs next) as [[[fs2 n2] o2] r2]. cbn [fst snd] in *.
    rewrite decide_True by done. subst. split_and!; try done.
    cbn [app length]. by rewrite Hlen.
  - unfold serves in Hs. rewrite Hs.
    destruct (hook fs next) as [[[fs2 n2] o2] r2]. cbn [fst snd] in *.
    rewrite decide_False by (by intros []). by subst.
Qed.

End Table.

Section LaterPackets.
Variable startPublishing : nat → string → list string → option string.
Variable session : rtspSession.
Variable ctx : ServerHandlerOnPacketRTPCtx.

(** X14.  After a call that has returned, no later packet of the same
    stream can open a connection or panic, whatever [StartPublishing] would
    answer by then: the hook returns, leaves the table as it is, and makes
    one call, a write, per forwarder of the stream. *)
Theorem later_packets_never_open
    (fs fs' : list forwarder) (next next' : nat) (out : list call)
    (startPublishing' : nat → string → list string → option string)
    (session' : rtspSession) (ctx' : ServerHandlerOnPacketRTPCtx)
    (next'' : nat) :
  OnRTPForward startPublishing session ctx fs next = (fs', next', out, Returned) →
  pathName session' = pathName session →
  ∃ out',
    OnRTPForward startPublishing' session' ctx' fs' next''
    = (fs', next'', out', Returned)
    ∧ filter is_start out' = []
    ∧ length out' = length (filter (serves session) fs').
Proof.
  intros Hcall Hname.
  pose proof (hook_shape startPublishing session ctx fs next)
    as (_ & _ & _ & Hopened).
  rewrite Hcall in Hopened. cbn [fst snd] in Hopened.
  specialize (Hopened eq_refl).
  assert (Forall (λ f, unopened session' f = false) fs') as Hopened'.
  { eapply Forall_impl; [exact Hopened|]. intros f.
    unfold unopened, serves. by rewrite Hname. }
  pose proof (hook_on_opened_table startPublishing' session' ctx' fs' Hopened'
                next'') as (Hfs & Hn & Hr & Hst & Hlen).
  destruct (OnRTPForward startPublishing' session' ctx' fs' next'')
    as [[[fs2 n2] o2] r2]. cbn [fst snd] in *. subst.
  exists o2. split_and!; [done..|].
  rewrite Hlen. f_equal. apply list_filter_iff. intros f.
  unfold serves. by rewrite Hname.
Qed.

End LaterPackets.

Section Composition.
Variable startPublishing : nat → string → list string → option string.
Variable session : rtspSession.
Variable ctx : ServerHandlerOnPacketRTPCtx.

Abbreviation hook := (OnRTPForward startPublishing session ctx).

Lemma hook_app (fs1 : list forwarder) :
  ∀ fs2 next,
    hook (fs1 ++ fs2) next
    = match hook fs1 next with
      | (fs1', n1, o1, Returned) =>
          (fs1' ++ (hook fs2 n1).1.1.1, (hook fs2 n1).1.1.2,
           o1 ++ (hook fs2 n1).1.2, (hook fs2 n1).2)
      | (fs1', n1, o1, Panicked err) => (fs1' ++ fs2, n1, o1, Panicked err)
      end.
Proof.
  induction fs1 as [|f fs1 IH]; intros fs2 next; cbn [OnRTPForward app].
  - by destruct (hook fs2 next) as [[[fs2' n2] o2] r2].
  - destruct (forwardOne _ _ _ f next) as [[[f1 n1] o1] [|err]]; [|done].
    rewrite IH.
    destruct (hook fs1 n1) as [[[fs1' n1'] o1'] [|err]]; cbn [fst snd].
    + by rewrite app_assoc.
    + done.
Qed.

(** X15.  The forwarders are served in the order of their registration,
    and a later one cannot change what an earlier one gets: the hook on a
    table followed by more entries does on the first part what it does on
    that part alone, then goes on with the rest, unless it has panicked, in
    which case the rest is left alone.  So after one more [regiserForward]
    the calls the hook makes start with the calls it made before. *)
Theorem hook_serves_in_registration_order
    (fs1 fs2 : list forwarder) (next : nat) (src dst : string) :
  hook (fs1 ++ fs2) next
  = match hook fs1 next with
    | (fs1', n1, o1, Returned) =>
        (fs1' ++ (hook fs2 n1).1.1.1, (hook fs2 n1).1.1.2,
         o1 ++ (hook fs2 n1).1.2, (hook fs2 n1).2)
    | (fs1', n1, o1, Panicked err) => (fs1' ++ fs2, n1, o1, Panicked err)
    end
  ∧ ∃ more,
      (hook (regiserForward src dst fs1) next).1.2
      = (hook fs1 next).1.2 ++ more.
Proof.
  split; [apply hook_app|].
  unfold regiserForward. rewrite hook_app.
  destruct (hook fs1 next) as [[[fs1' n1] o1] [|err]]; cbn [fst snd].
  - by eexists.
  - exists []. by rewrite app_nil_r.
Qed.

Lemma forwardOne_counts (f : forwarder) (next : nat) :
  let r := forwardOne startPublishing session ctx f next in
  r.1.1.2 = next + length (filter is_start r.1.2)
  ∧ length (filter is_start r.1.2) = (if unopened session f then 1 else 0)
  ∧ (r.2 = Returned →
     length (filter is_write r.1.2) = (if serves session f then 1 else 0))
  ∧ length (filter is_write r.1.2) ≤ (if serves session f then 1 else 0).
Proof.
  unfold forwardOne, unopened, serves.
  destruct (bool_decide (source f = pathName session)) eqn:Hsrc.
  - destruct (client f) as [c|] eqn:Hc.
    + cbn. decide_filters. cbn. split_and!; (done || lia).
    + destruct (startPublishing next _ _); cbn; decide_filters; cbn;
        split_and!; (done || lia).
  - cbn. split_and!; (done || lia).
Qed.

(** X16.  How much a call does: it makes one [StartPublishing] call per
    client address it takes, and as long as it does not panic these are one
    per forwarder of the stream that had no client, with one write per
    forwarder of the stream; a call that panics has made fewer writes. *)
Theorem hook_call_counts (fs : list forwarder) (next : nat) :
  (hook fs next).1.1.2 = next + length (filter is_start (hook fs next).1.2)
  ∧ length (filter is_start (hook fs next).1.2)
    ≤ length (filter (unopened session) fs)
  ∧ length (filter is_write (hook fs next).1.2)
    ≤ length (filter (serves session) fs)
  ∧ match (hook fs next).2 with
    | Returned =>
        length (filter is_start (hook fs next).1.2)
        = length (filter (unopened session) fs)
        ∧ length (filter is_write (hook fs next).1.2)
          = length (filter (serves session) fs)
    | Panicked _ =>
        length (filter is_write (hook fs next).1.2)
        < length (filter (serves session) fs)
    end.
Proof.
  revert next. induction fs as [|f fs IH]; intros next.
  { cbn. split_and!; (done || lia). }
  cbn [OnRTPForward]. rewrite !filter_cons.
  pose proof (forwardOne_counts f next) as (Hn & Hst & Hwr & Hwle).
  cbn zeta in *.
  assert (length (if decide (unopened session f)
                  then f :: filter (unopened session) fs
                  else filter (unopened session) fs)
          = (if unopened session f then 1 else 0)
            + length (filter (unopened session) fs)) as ->.
  { by destruct (unopened session f). }
  assert (length (if decide (serves session f)
                  then f :: filter (serves session) fs
                  else filter (serves session) fs)
          = (if serves session f then 1 else 0)
            + length (filter (serves session) fs)) as ->.
  { by destruct (serves session f). }
  destruct (forwardOne _ _ _ f next) as [[[f1 n1] o1] [|err]] eqn:Hone;
    cbn [fst snd] in *.
  - specialize (Hwr eq_refl).
    specialize (IH n1) as (IHn & IHst & IHwr & IHres).
    destruct (hook fs n1) as [[[fs2 n2] o2] r2]. cbn [fst snd] in *.
    rewrite !filter_app, !length_app.
    split_and!; try lia. destruct r2; lia.
  - split_and!; try lia.
    assert (length (filter is_write o1) = 0) as Hw0.
    { revert Hone. unfold forwardOne.
      destruct (bool_decide _); [|done].
      destruct (client f); [done|].
      destruct (startPublishing next _ _); [|done].
      by intros [= _ _ <- _]. }
    assert (serves session f = true) as Hs.
    { revert Hone. unfold forwardOne, serves.
      by destruct (bool_decide _). }
    rewrite Hs in *. lia.
Qed.

Lemma forwardOne_client (f : forwarder) (next : nat) :
  let r := forwardOne startPublishing session ctx f next in
  (client r.1.1.1 = client f ∧ r.1.1.2 = next)
  ∨ (client f = None ∧ client r.1.1.1 = Some next ∧ r.1.1.2 = S next).
Proof.
  unfold forwardOne.
  destruct (bool_decide _); [|by left].
  destruct (client f) as [c|] eqn:Hc; [by left|].
  destruct (startPublishing next _ _); by right.
Qed.

Lemma clients_cons (f : forwarder) (fs : list forwarder) :
  clients (f :: fs)
  = match client f with Some c => c :: clients fs | None => clients fs end.
Proof. reflexivity. Qed.

Lemma hook_clients (fs : list forwarder) :
  ∀ next,
    Forall (λ c, c < next) (clients fs) → NoDup (clients fs) →
    Forall (λ c, c < (hook fs next).1.1.2) (clients (hook fs next).1.1.1)
    ∧ NoDup (clients (hook fs next).1.1.1)
    ∧ next ≤ (hook fs next).1.1.2
    ∧ ∀ c, c ∈ clients (hook fs next).1.1.1 → c ∈ clients fs ∨ next ≤ c.
Proof.
  induction fs as [|f fs IH]; intros next Hlt Hnd.
  { cbn. split_and!; [done|done|lia|]. intros c Hc. by left. }
  rewrite clients_cons in Hlt, Hnd.
  assert (Forall (λ c, c < next) (clients fs) ∧ NoDup (clients fs)) as [Hlt' Hnd'].
  { destruct (client f).
    - apply Forall_cons in Hlt as [_ ?]. by apply NoDup_cons in Hnd as [_ ?].
    - done. }
  assert (∀ c, c ∈ clients fs → c < next) as Hbelow.
  { by apply Forall_forall. }
  cbn [OnRTPForward].
  pose proof (forwardOne_client f next) as Hone. cbn zeta in Hone.
  destruct (forwardOne _ _ _ f next) as [[[f1 n1] o1] res1].
  cbn [fst snd] in Hone.
  destruct Hone as [[Hcl ->]|(Hnone & Hcl & ->)].
  - (* the forwarder keeps the client it had, if any *)
    destruct res1 as [|err]; cbn [fst snd].
    + specialize (IH next Hlt' Hnd') as (IHlt & IHnd & IHle & IHin).
      destruct (hook fs next) as [[[fs2 n2] o2] r2]. cbn [fst snd] in *.
      rewrite !clients_cons, Hcl.
      destruct (client f) as [c0|].
      * apply Forall_cons in Hlt as [Hc0 _]. apply NoDup_cons in Hnd as [Hnew _].
        split_and!.
        -- apply Forall_cons. split; [lia|done].
        -- apply NoDup_cons. split; [|done]. intros Hin.
           destruct (IHin c0 Hin) as [?|?]; [done|lia].
        -- done.
        -- intros c [->|Hin]%elem_of_cons; [left; by left|].
           destruct (IHin c Hin) as [?|?]; [left; by right|by right].
      * by split_and!.
    + rewrite !clients_cons, Hcl.
      split_and!; [done|done|lia|]. intros c Hc. by left.
  - (* the forwarder is given the next free address *)
    rewrite Hnone in Hlt, Hnd.
    destruct res1 as [|err]; cbn [fst snd].
    + specialize (IH (S next)) as (IHlt & IHnd & IHle & IHin).
      { eapply Forall_impl; [exact Hlt'|]. intros c Hc. cbn in *. lia. }
      { done. }
      destruct (hook fs (S next)) as [[[fs2 n2] o2] r2]. cbn [fst snd] in *.
      rewrite !clients_cons, Hcl, Hnone. split_and!.
      * apply Forall_cons. split; [lia|done].
      * apply NoDup_cons. split; [|done]. intros Hin.
        destruct (IHin next Hin) as [Hold|?]; [|lia].
        apply Hbelow in Hold. lia.
      * lia.
      * intros c [->|Hin]%elem_of_cons; [right; lia|].
        destruct (IHin c Hin) as [?|?]; [by left|right; lia].
    + rewrite !clients_cons, Hcl, Hnone. split_and!.
      * apply Forall_cons. split; [lia|].
        eapply Forall_impl; [exact Hlt'|]. intros c Hc. cbn in *. lia.
      * apply NoDup_cons. split; [|done]. intros Hin.
        apply Hbelow in Hin. lia.
      * lia.
      * intros c [->|Hin]%elem_of_cons; [right; lia|by left].
Qed.

(** X17.  No two forwarders ever share a client.  If the clients of the
    table are pairwise different and lie below the next free address, they
    still are and do after a call of the hook, returned or panicked, and
    after one more [regiserForward]. *)
Theorem forwarders_never_share_a_client
    (fs : list forwarder) (next : nat) (src dst : string) :
  Forall (λ c, c < next) (clients fs) → NoDup (clients fs) →
  Forall (λ c, c < (hook fs next).1.1.2) (clients (hook fs next).1.1.1)
  ∧ NoDup (clients (hook fs next).1.1.1)
  ∧ clients (regiserForward src dst fs) = clients fs.
Proof.
  intros Hlt Hnd. destruct (hook_clients fs next Hlt Hnd) as (? & ? & _).
  split_and!; [done..|].
  unfold clients, regiserForward. rewrite omap_app. cbn. by rewrite app_nil_r.
Qed.

End Composition.
End ForwardMore.

(** X18.  An allocated ID, read back as a decimal numeral, is the number the
    draw was folded to; so two draws are given the same ID only when they
    fold to the same number, and the string comparison that looks for a
    taken ID compares these numbers. *)
Theorem allocated_id_reads_back (b b' : Binary.buf4) :
  Strconv.decimal (id_of_bytes b) = fold_id b
  ∧ (id_of_bytes b = id_of_bytes b' ↔ fold_id b = fold_id b').
Proof.
  assert (∀ x, Strconv.decimal (id_of_bytes x) = fold_id x) as Hback.
  { intros x. pose proof (BinaryFacts.fold_id_range x) as Hr.
    by destruct (StrconvFacts.FormatUint_nine (fold_id x) ltac:(lia))
      as (_ & _ & ?). }
  split; [apply Hback|]. split.
  - intros Heq. by rewrite <- (Hback b), <- (Hback b'), Heq.
  - intros Heq. unfold id_of_bytes. by rewrite Heq.
Qed.

(** * Worked instances of the further properties *)

Lemma fresh_server_heap_bounded : heap_bounded fresh_server.
Proof. intros p [e He]. cbn in He. by rewrite lookup_empty in He. Qed.

Lemma run_closes_each_worker_once_witness :
  NoDup (closed_workers (@run map_to_list_order fresh_server busy_run).1.2)
  ∧ closed_workers (@run map_to_list_order fresh_server busy_run).1.2 = [0].
Proof.
  split; [|vm_compute; reflexivity].
  exact (proj1 (@run_closes_each_worker_once map_to_list_order fresh_server
                  busy_run fresh_server_heap_bounded)).
Defined.

Lemma run_leaves_at_first_shutdown_event_witness :
  (@run map_to_list_order fresh_server (busy_run ++ CtxDone :: [ConnClose 1])).1.1
  = (@outer map_to_list_order fresh_server busy_run).1.1.
Proof.
  destruct (@run_leaves_at_first_shutdown_event map_to_list_order fresh_server
              (@outer map_to_list_order fresh_server busy_run).1.1
              busy_run [ConnClose 1]
              (@outer map_to_list_order fresh_server busy_run).1.2
              "use of closed network connection"%string)
    as (Hrun & _).
  - vm_compute. reflexivity.
  - rewrite Hrun. reflexivity.
Defined.

Lemma accepted_connection_is_listed_witness :
  ∃ s' data,
    @outer map_to_list_order one_conn_server
      [ConnNew "192.0.2.2:50000" [RandOk bytes_one; RandOk bytes_two];
       APIConnsList (λ _, ServerSessionStatePublish)]
    = (s', [NewRTMPConn 1 "100000002" "192.0.2.2:50000";
            SendListRes (API.ListRes (Some data) None)], Parked)
    ∧ API.Items data !! "100000002"%string
      = Some (API.ListItem "192.0.2.2:50000" "publish").
Proof.
  destruct (@accepted_connection_is_listed map_to_list_order
              (λ _, ServerSessionStatePublish) one_conn_server
              "192.0.2.2:50000" [RandOk bytes_one; RandOk bytes_two]
              "100000002")
    as (s' & data & Hrun & _ & Hitem).
  - vm_compute. reflexivity.
  - exists s', data. split; [exact Hrun|exact Hitem].
Defined.

Lemma one_conn_registered : id_registered (conns one_conn_server) "100000001".
Proof. exists 0, one_conn. split; reflexivity. Qed.

Lemma kicked_connection_is_gone_witness :
  ∃ p s' data,
    @outer map_to_list_order one_conn_server
      [APIConnsKick "100000001"; APIConnsList (λ _, ServerSessionStateInitial)]
    = (s', [ConnCloseCall p; SendKickRes (API.KickRes None);
            SendListRes (API.ListRes (Some data) None)], Parked)
    ∧ API.Items data !! "100000001"%string = None.
Proof.
  destruct (@kicked_connection_is_gone map_to_list_order
              (λ _, ServerSessionStateInitial) one_conn_server "100000001"
              one_conn_ids_unique one_conn_registered)
    as (p & s' & data & Hrun & Hnone & _).
  exists p, s', data. split; [exact Hrun|exact Hnone].
Defined.

Lemma facade_calls_can_always_proceed_witness :
  @Facade.onAPIConnsKick map_to_list_order cancelled_world "100000001" ≠ [].
Proof.
  refine (proj1 (proj2 (@FacadeMore.facade_calls_can_always_proceed
            map_to_list_order started_world cancelled_world _ _)) _).
  - left. by eexists.
  - apply rtc_once. exact (Facade.ws_cancel started_world).
Defined.


Lemma later_packets_never_open_witness :
  ∃ out',
    Forward.OnRTPForward ForwardInputs.never_opens ForwardInputs.live_session
      ForwardInputs.packet
      [Forward.Forwarder "other.stream" ForwardInputs.live2 None;
       Forward.Forwarder "live.stream" ForwardInputs.live2 (Some 0)] 1
    = ([Forward.Forwarder "other.stream" ForwardInputs.live2 None;
        Forward.Forwarder "live.stream" ForwardInputs.live2 (Some 0)],
       1, out', Forward.Returned)
    ∧ filter Forward.is_start out' = [].
Proof.
  destruct (ForwardMore.later_packets_never_open
              ForwardInputs.always_opens ForwardInputs.live_session
              ForwardInputs.packet ForwardInputs.mixed_table
              [Forward.Forwarder "other.stream" ForwardInputs.live2 None;
               Forward.Forwarder "live.stream" ForwardInputs.live2 (Some 0)]
              0 1
              [Forward.StartPublishing 0 ForwardInputs.live2 ["video"; "audio"];
               Forward.WritePacketRTP 0 1 [x80; x60]]
              ForwardInputs.never_opens ForwardInputs.live_session
              ForwardInputs.packet 1 eq_refl eq_refl)
    as (out' & Hcall & Hnone & _).
  exists out'. split; [exact Hcall|exact Hnone].
Defined.

Lemma forwarders_never_share_a_client_witness :
  NoDup (clients (Forward.OnRTPForward ForwardInputs.always_opens
                    ForwardInputs.live_session ForwardInputs.packet
                    ForwardInputs.half_open_table 1).1.1.1).
Proof.
  refine (proj1 (proj2 (ForwardMore.forwarders_never_share_a_client
            ForwardInputs.always_opens ForwardInputs.live_session
            ForwardInputs.packet ForwardInputs.half_open_table 1
            "live.stream"%string ForwardInputs.live2 _ _))).
  - repeat constructor.
  - apply NoDup_singleton.
Defined.

